(** * Static RAM calculation (src/Script/RamCalculations.ts)

    A shallow embedding of the three stages of the analyser -- the module
    parser ([NetscriptFileParser]), the link resolver
    ([InvocationTreeBuilder]) and the reachability traversal with its cost
    reducer ([findAllCalledFunctions], [calculateRamCost]) -- and of the
    top-level [calculateRamUsage], followed by the properties of the
    specification stated against them.  The two [while] loops take a bound
    on their iterations; [await] is sequential. *)

From Stdlib Require Import Ascii String QArith Lqa.
From stdpp Require Import base option list strings gmap.

Set Warnings "-register-all".

Open Scope string_scope.
Open Scope list_scope.
Open Scope nat_scope.

(** ** JavaScript values that can reach a [cost] field

    [RamUsageEntry.cost] and [RamCalculation.cost] are declared [number], but
    the cost table is untyped: a lookup of an absent key yields [undefined],
    and a lookup of a sub-API key yields the nested table, an object.  Numbers
    are kept exact (rationals); a string is kept without its contents. *)
Module Js.

Inductive value : Type :=
| Undefined
| Number (n : Q)
| NaN
| String_
| Object.

(** The binary [+] of JavaScript on these values: an object or string
    operand turns the sum into a string concatenation, [undefined] or [NaN]
    with a number gives [NaN]. *)
Definition plus (a b : value) : value :=
  match a, b with
  | Number x, Number y => Number (x + y)
  | (String_ | Object), _ => String_
  | _, (String_ | Object) => String_
  | _, _ => NaN
  end.

(** [String.prototype.startsWith] and [String.prototype.slice(n)]. *)
Definition startsWith (s p : string) : bool := String.prefix p s.

Fixpoint slice (n : nat) (s : string) : string :=
  match n, s with
  | S n', String _ s' => slice n' s'
  | _, _ => s
  end.

(** [s.split(".")]: never empty, the empty string gives one empty
    segment. *)
Fixpoint split_dot (s : string) : list string :=
  match s with
  | EmptyString => [""]
  | String c s' =>
      if Ascii.eqb c "."%char then "" :: split_dot s'
      else match split_dot s' with
           | seg :: segs => String c seg :: segs
           | [] => [String c ""]
           end
  end.

(** [Array.prototype.includes] on strings. *)
Definition includes (l : list string) (x : string) : bool :=
  existsb (String.eqb x) l.

End Js.

(** ** The lodash functions the analyser calls *)
Module Lodash.

(** [_.uniqWith(array, comparator)]: the first occurrence of every class is
    kept, in order; [seen] is the result built so far. *)
Fixpoint baseUniq {A} (comparator : A → A → bool) (array seen : list A)
  : list A :=
  match array with
  | [] => seen
  | value :: rest =>
      if existsb (comparator value) seen
      then baseUniq comparator rest seen
      else baseUniq comparator rest (seen ++ [value])
  end.

Definition uniqWith {A} (array : list A) (comparator : A → A → bool)
  : list A := baseUniq comparator array [].

Definition uniq (array : list string) : list string :=
  uniqWith array String.eqb.

(** [_.sum]: [baseSum] skips [undefined] elements and starts from an
    [undefined] accumulator. *)
Fixpoint baseSum (array : list Js.value) (result : Js.value) : Js.value :=
  match array with
  | [] => result
  | current :: rest =>
      baseSum rest
        match current with
        | Js.Undefined => result
        | _ => match result with
               | Js.Undefined => current
               | _ => Js.plus result current
               end
        end
  end.

Definition sum (array : list Js.value) : Js.value :=
  match array with
  | [] => Js.Number 0
  | _ => baseSum array Js.Undefined
  end.

End Lodash.

(** ** Thrown values and the result of a fallible stage *)

(** [RamCalculationErrorCodes.ts] is not part of the sources at hand; the enum
    is read off its uses.  Its numeric encoding is a parameter of the
    analyser below. *)
Module RamCalculationErrorCode.
Inductive t : Set := SyntaxError | ImportError | URLImportError.
End RamCalculationErrorCode.

(** What a stage can throw: the front end's own [SyntaxError] object, a
    [TypeError] of the JavaScript runtime (a property read on [undefined]),
    or the analyser's [RamCalculationException]. *)
Inductive Thrown : Type :=
| AcornSyntaxError
| TypeError
| RamCalculationException (code : RamCalculationErrorCode.t) (message : string).

(** [error?.code]: only [RamCalculationException] has the field. *)
Definition Thrown_code (error : Thrown) : option RamCalculationErrorCode.t :=
  match error with
  | RamCalculationException code _ => Some code
  | AcornSyntaxError | TypeError => None
  end.

Inductive Result (A : Type) : Type :=
| Return (a : A)
| Throw (error : Thrown).
Arguments Return {A} a.
Arguments Throw {A} error.

Global Instance Result_ret : MRet Result := @Return.
Global Instance Result_bind : MBind Result := λ A B f m,
  match m with
  | Return a => f a
  | Throw error => Throw error
  end.

(** ** Data model *)

Record ImportedModule : Type := mkImportedModule
  { im_filePath : string; alias : string; imports : list string }.

Record DefinedFunction : Type := mkDefinedFunction
  { name : string; namespace : string; filePath : string }.

Record FunctionTreeNode : Type := mkFunctionTreeNode
  { fn : DefinedFunction; calledFunctions : list DefinedFunction }.

Record ParsedModule : Type := mkParsedModule
  { pm_filePath : string;
    importedModules : list ImportedModule;
    functionTree : list FunctionTreeNode }.

Record FunctionCalls : Type := mkFunctionCalls
  { resolvedFunctions : list DefinedFunction;
    unresolvedFunctions : list DefinedFunction }.

Inductive RamUsageEntryType : Set := type_ns | type_dom | type_fn | type_misc.

Record RamUsageEntry : Type := mkRamUsageEntry
  { type : RamUsageEntryType; entry_name : string; entry_cost : Js.value }.

Record RamCalculation : Type := mkRamCalculation
  { cost : Js.value; entries : option (list RamUsageEntry) }.

Record Script : Type := mkScript { filename : string; code : string }.

Global Instance DefinedFunction_eq_dec : EqDecision DefinedFunction.
Proof. solve_decision. Defined.

(** [_.isEqual] on two [DefinedFunction] objects: all three fields agree. *)
Definition isEqual (a b : DefinedFunction) : bool := bool_decide (a = b).

(** ** The cost table ([Netscript/RamCostGenerator], host data)

    A two-level mapping: a key of [RamCosts] holds a number, a function of the
    player, or the nested table of a sub-API whose keys hold numbers or
    functions of the player.  Only own properties are modelled. *)
Inductive RamCostLeaf (IPlayer : Type) : Type :=
| CostNumber (n : Q)
| CostFunction (f : IPlayer → Q).
Arguments CostNumber {IPlayer} n.
Arguments CostFunction {IPlayer} f.

Inductive RamCostValue (IPlayer : Type) : Type :=
| CostLeaf (l : RamCostLeaf IPlayer)
| CostSubApi (t : gmap string (RamCostLeaf IPlayer)).
Arguments CostLeaf {IPlayer} l.
Arguments CostSubApi {IPlayer} t.

Record RamCostConstantsT : Type := mkRamCostConstants
  { ScriptBaseRamCost : Q;
    ScriptHacknetNodesRamCost : Q;
    ScriptDomRamCost : Q;
    ScriptCorporationRamCost : Q }.

Section CostReducer.

Context {IPlayer : Type}.
Variable RamCosts : gmap string (RamCostValue IPlayer).
Variable RamCostConstants : RamCostConstantsT.

Definition specialKeyChecks : list RamUsageEntry :=
  [ mkRamUsageEntry type_ns "ns.hacknet"
      (Js.Number (ScriptHacknetNodesRamCost RamCostConstants));
    mkRamUsageEntry type_dom "document"
      (Js.Number (ScriptDomRamCost RamCostConstants));
    mkRamUsageEntry type_dom "window"
      (Js.Number (ScriptDomRamCost RamCostConstants));
    mkRamUsageEntry type_ns "ns.corporation"
      (Js.Number (ScriptCorporationRamCost RamCostConstants)) ].

(** [typeof cost === "function" ? cost(player) : cost] on a leaf. *)
Definition actualCost (player : IPlayer) (l : RamCostLeaf IPlayer) : Js.value :=
  match l with
  | CostNumber n => Js.Number n
  | CostFunction f => Js.Number (f player)
  end.

(** The callback of [uniqueFunctions.map] in [calculateRamCost]. *)
Definition costEntry (player : IPlayer) (fn : DefinedFunction)
  : Result RamUsageEntry :=
  match List.find (λ sk, String.eqb (namespace fn) (entry_name sk))
          specialKeyChecks with
  | Some specialCost => Return specialCost
  | None =>
      let splitNamespace := Js.split_dot (namespace fn) in
      if decide (1 < length splitNamespace) then
        let libPart := List.last splitNamespace "" in
        match RamCosts !! libPart with
        | None => Throw TypeError
        | Some (CostSubApi t) =>
            Return (mkRamUsageEntry type_ns (name fn)
                      match t !! name fn with
                      | Some l => actualCost player l
                      | None => Js.Number 0
                      end)
        | Some (CostLeaf _) =>
            Return (mkRamUsageEntry type_ns (name fn) (Js.Number 0))
        end
      else
        Return (mkRamUsageEntry type_ns (name fn)
                  match RamCosts !! name fn with
                  | Some (CostLeaf l) => actualCost player l
                  | Some (CostSubApi _) => Js.Object
                  | None => Js.Undefined
                  end)
  end.

Definition baseCost : RamUsageEntry :=
  mkRamUsageEntry type_misc "baseCost"
    (Js.Number (ScriptBaseRamCost RamCostConstants)).

Definition calculateRamCost (player : IPlayer)
    (functions : list DefinedFunction) : Result RamCalculation :=
  let uniqueFunctions := Lodash.uniqWith functions isEqual in
  entries ← mapM (costEntry player) uniqueFunctions;
  let entriesWithBase := baseCost :: entries in
  let cost := Lodash.sum (map entry_cost entriesWithBase) in
  Return (mkRamCalculation cost (Some entries)).

End CostReducer.

(** ** The syntax trees of the front end (acorn, ESTree)

    The node kinds the visitors below are exercised on; a member access is a
    plain [object.property], an import specifier names identifiers.  Every
    field keeps its ESTree name. *)
Module Acorn.

Inductive Specifier : Type :=
| ImportSpecifier (imported local : string)
| ImportDefaultSpecifier (local : string)
| ImportNamespaceSpecifier (local : string).

Inductive Node : Type :=
| Identifier (name : string)
| Literal (raw : string)
| ThisExpression
| MemberExpression (object : Node) (property : string)
| CallExpression (callee : Node) (arguments : list Node)
| NewExpression (callee : Node) (arguments : list Node)
| AwaitExpression (argument : Node)
| ArrayExpression (elements : list Node)
| FunctionExpression (params : list Node) (body : Node)
| ExpressionStatement (expression : Node)
| ReturnStatement (argument : option Node)
| VariableDeclaration (declarations : list Node)
| VariableDeclarator (id : Node) (init : option Node)
| BlockStatement (body : list Node)
| FunctionDeclaration (id : option string) (params : list Node) (body : Node)
| ClassDeclaration (id : option string) (body : Node)
| ClassBody (body : list Node)
| MethodDefinition (key : string) (value : Node)
| PropertyDefinition (key : string) (value : option Node)
| ImportDeclaration (specifiers : list Specifier) (source : string)
| ExportNamedDeclaration (declaration : option Node)
| ExportDefaultDeclaration (declaration : Node)
| Program (body : list Node).

(** Field reads that the visitors chain with [?.]: [None] is [undefined]. *)
Definition name (node : Node) : option string :=
  match node with Identifier n => Some n | _ => None end.

Definition object (node : Node) : option Node :=
  match node with MemberExpression o _ => Some o | _ => None end.

Definition property (node : Node) : option Node :=
  match node with MemberExpression _ p => Some (Identifier p) | _ => None end.

Definition callee (node : Node) : option Node :=
  match node with
  | CallExpression c _ | NewExpression c _ => Some c
  | _ => None
  end.

Definition imported (s : Specifier) : option string :=
  match s with ImportSpecifier i _ => Some i | _ => None end.

Definition local (s : Specifier) : string :=
  match s with
  | ImportSpecifier _ l | ImportDefaultSpecifier l
  | ImportNamespaceSpecifier l => l
  end.

End Acorn.

(** A string in a condition: the empty string is falsy. *)
Definition truthy (s : option string) : option string :=
  match s with
  | Some "" | None => None
  | Some n => Some n
  end.

(** [a ?? b] *)
Definition nullish {A} (a : option A) (b : A) : A := default b a.

(** State of the top-level walk ([TopLevelParseState]) and of the walk inside
    one function or class ([WithinFunctionParseState]).  The [readonly
    filePath] of the top-level state is the parser's own and is passed next
    to the state. *)
Record TopLevelParseState : Type := mkTopLevelParseState
  { tl_functionTree : list FunctionTreeNode;
    tl_importedModules : list ImportedModule }.

Definition recordImport (path alias : string) (imports : list string)
    (state : TopLevelParseState) : TopLevelParseState :=
  mkTopLevelParseState (tl_functionTree state)
    (tl_importedModules state ++ [mkImportedModule path alias imports]).

Definition recordFunction (fn : FunctionTreeNode) (state : TopLevelParseState)
  : TopLevelParseState :=
  mkTopLevelParseState (tl_functionTree state ++ [fn])
    (tl_importedModules state).

Definition toParseResults (filePath : string) (state : TopLevelParseState)
  : ParsedModule :=
  mkParsedModule filePath (tl_importedModules state) (tl_functionTree state).

Record WithinFunctionParseState : Type := mkWithinFunctionParseState
  { currentFunction : DefinedFunction;
    currentCalledFunctions : list DefinedFunction;
    wf_filePath : string }.

Definition newWithinFunctionParseState (name namespace filePath : string)
  : WithinFunctionParseState :=
  mkWithinFunctionParseState (mkDefinedFunction name namespace filePath) []
    filePath.

Definition recordFunctionCall (name namespace : string)
    (state : WithinFunctionParseState) : WithinFunctionParseState :=
  mkWithinFunctionParseState (currentFunction state)
    (currentCalledFunctions state
       ++ [mkDefinedFunction name namespace (wf_filePath state)])
    (wf_filePath state).

Definition endFunction (state : WithinFunctionParseState) : FunctionTreeNode :=
  mkFunctionTreeNode (currentFunction state) (currentCalledFunctions state).

(** The visitors throw nothing of their own; what can go wrong in them is a
    property read on [undefined], a [TypeError] of the runtime.  They return
    an [option]: [None] stands for that [TypeError]. *)

(** The name and namespace [recordFunctionCalls] reads off a callee: a bare
    identifier, a two-deep chain [a.b.c], or a one-deep [a.c] whose object
    may itself be a call.  A callee that is neither an identifier nor a
    member access has no [property], and reading its [name] throws. *)
Definition calleeName (callee : Acorn.Node) : option (string * string) :=
  match truthy (Acorn.name callee) with
  | Some n => Some (n, "")
  | None =>
      match truthy (o ← Acorn.object callee; o' ← Acorn.object o; Acorn.name o')
      with
      | Some n2 =>
          p ← Acorn.property callee ≫= Acorn.name;
          q ← (o ← Acorn.object callee; p ← Acorn.property o; Acorn.name p);
          Some (p, n2 +:+ "." +:+ q)
      | None =>
          p ← Acorn.property callee ≫= Acorn.name;
          Some (p,
                match Acorn.object callee ≫= Acorn.name with
                | Some n1 => n1
                | None =>
                    nullish
                      (o ← Acorn.object callee; c ← Acorn.callee o;
                       Acorn.name c) ""
                end)
      end
  end.

(** [walk.recursive(node, state, this.withinBlockParsing())]: calls, [new]
    and member accesses are recorded; after a call only its callee is walked,
    a member access is not walked further; every other node is walked the way
    acorn-walk's base visitor does. *)
Fixpoint withinBlockParsing (node : Acorn.Node)
    (state : WithinFunctionParseState) {struct node}
  : option WithinFunctionParseState :=
  let each :=
    fix each (nodes : list Acorn.Node) (state : WithinFunctionParseState)
      : option WithinFunctionParseState :=
      match nodes with
      | [] => Some state
      | n :: rest => state' ← withinBlockParsing n state; each rest state'
      end in
  match node with
  | Acorn.CallExpression callee _ | Acorn.NewExpression callee _ =>
      '(fnName, fnNamespace) ← calleeName callee;
      withinBlockParsing callee (recordFunctionCall fnName fnNamespace state)
  | Acorn.MemberExpression object property =>
      Some (recordFunctionCall property (nullish (Acorn.name object) "") state)
  | Acorn.Identifier _ | Acorn.Literal _ | Acorn.ThisExpression
  | Acorn.ImportDeclaration _ _ => Some state
  | Acorn.AwaitExpression argument | Acorn.ExpressionStatement argument
  | Acorn.ExportDefaultDeclaration argument =>
      withinBlockParsing argument state
  | Acorn.ReturnStatement argument | Acorn.ExportNamedDeclaration argument
  | Acorn.PropertyDefinition _ argument =>
      match argument with
      | Some n => withinBlockParsing n state
      | None => Some state
      end
  | Acorn.ArrayExpression nodes | Acorn.VariableDeclaration nodes
  | Acorn.BlockStatement nodes | Acorn.ClassBody nodes
  | Acorn.Program nodes => each nodes state
  | Acorn.VariableDeclarator id init =>
      state' ← withinBlockParsing id state;
      match init with
      | Some n => withinBlockParsing n state'
      | None => Some state'
      end
  | Acorn.FunctionExpression params body
  | Acorn.FunctionDeclaration _ params body =>
      state' ← each params state; withinBlockParsing body state'
  | Acorn.ClassDeclaration _ body | Acorn.MethodDefinition _ body =>
      withinBlockParsing body state
  end.

(** [parseImport]: a first specifier without [imported] (a default or a
    namespace import, or no specifier at all) makes the import a namespace
    import under the local name; otherwise the imported names are listed. *)
Definition parseImport (specifiers : list Acorn.Specifier) (source : string)
    (state : TopLevelParseState) : option TopLevelParseState :=
  let sourcePath := source in
  match head specifiers ≫= Acorn.imported with
  | None =>
      let alias := nullish (Acorn.local <$> head specifiers) "" in
      Some (recordImport sourcePath alias ["*"] state)
  | Some _ =>
      imports ← mapM Acorn.imported specifiers;
      Some (recordImport sourcePath "" imports state)
  end.

(** [walk.recursive(ast, state, this.topLevelParsing())]: imports and
    function or class declarations are handled by [parseImport] and
    [parseFunctionOrClass] and not walked further by this visitor; every
    other node is walked the way acorn-walk's base visitor does. *)
Fixpoint topLevelParsing (filePath : string) (node : Acorn.Node)
    (state : TopLevelParseState) {struct node} : option TopLevelParseState :=
  let each :=
    fix each (nodes : list Acorn.Node) (state : TopLevelParseState)
      : option TopLevelParseState :=
      match nodes with
      | [] => Some state
      | n :: rest => state' ← topLevelParsing filePath n state; each rest state'
      end in
  match node with
  | Acorn.ImportDeclaration specifiers source =>
      parseImport specifiers source state
  | Acorn.FunctionDeclaration id _ body | Acorn.ClassDeclaration id body =>
      fnName ← id;
      fnState ← withinBlockParsing body
                  (newWithinFunctionParseState fnName "" filePath);
      Some (recordFunction (endFunction fnState) state)
  | Acorn.Identifier _ | Acorn.Literal _ | Acorn.ThisExpression => Some state
  | Acorn.MemberExpression object _ => topLevelParsing filePath object state
  | Acorn.CallExpression callee arguments
  | Acorn.NewExpression callee arguments =>
      state' ← topLevelParsing filePath callee state; each arguments state'
  | Acorn.AwaitExpression argument | Acorn.ExpressionStatement argument
  | Acorn.ExportDefaultDeclaration argument
  | Acorn.MethodDefinition _ argument =>
      topLevelParsing filePath argument state
  | Acorn.ReturnStatement argument | Acorn.ExportNamedDeclaration argument
  | Acorn.PropertyDefinition _ argument =>
      match argument with
      | Some n => topLevelParsing filePath n state
      | None => Some state
      end
  | Acorn.ArrayExpression nodes | Acorn.VariableDeclaration nodes
  | Acorn.BlockStatement nodes | Acorn.ClassBody nodes
  | Acorn.Program nodes => each nodes state
  | Acorn.VariableDeclarator id init =>
      state' ← topLevelParsing filePath id state;
      match init with
      | Some n => topLevelParsing filePath n state'
      | None => Some state'
      end
  | Acorn.FunctionExpression params body =>
      state' ← each params state; topLevelParsing filePath body state'
  end.

(** The walk of [parseScript] over a tree the front end has produced. *)
Definition parseTree (filePath : string) (ast : Acorn.Node)
  : Result ParsedModule :=
  match topLevelParsing filePath ast (mkTopLevelParseState [] []) with
  | Some state => Return (toParseResults filePath state)
  | None => Throw TypeError
  end.

Definition newline : string := String (Ascii.ascii_of_nat 10) "".

Section Analyser.

(** The collaborators of the analyser: the player object, the cost table and
    its constants, the numeric error codes, the front end ([None]: the source
    is rejected with a [SyntaxError]), the predicate matching a script's file
    name against an import specifier, and the dynamic import of a URL (the
    source texts of the functions the module exports, or the text of the
    error). *)
Context {IPlayer : Type}.
Variable RamCosts : gmap string (RamCostValue IPlayer).
Variable RamCostConstants : RamCostConstantsT.
Variable errorCodeValue : RamCalculationErrorCode.t → Q.
Variable parse : string → option Acorn.Node.
Variable areImportsEquals : string → string → bool.
Variable dynamicImport : string → list string + string.

(** [NetscriptFileParser.parseScript], for [new NetscriptFileParser(filePath)]. *)
Definition parseScript (filePath code : string) : Result ParsedModule :=
  match parse code with
  | None => Throw AcornSyntaxError
  | Some ast => parseTree filePath ast
  end.

(** [InvocationTreeBuilder.resolveExternalModule] *)
Definition resolveExternalModule (moduleUrl : string) : Result string :=
  match dynamicImport moduleUrl with
  | inl functions =>
      Return (foldl (λ code f, code +:+ f +:+ ";" +:+ newline) "" functions)
  | inr e =>
      Throw (RamCalculationException RamCalculationErrorCode.URLImportError
               ("Error dynamically importing module from " +:+ moduleUrl
                  +:+ " for RAM calculations: " +:+ e))
  end.

(** [pathToParse.startsWith("./") ? pathToParse.slice(2) : pathToParse] *)
Definition normalizedPath (pathToParse : string) : string :=
  if Js.startsWith pathToParse "./" then Js.slice 2 pathToParse
  else pathToParse.

(** The [while] loop of [parseAll]; [fuel] bounds the number of iterations
    ([None]: not finished within [fuel] iterations). *)
Fixpoint parseAll_loop (fuel : nat) (otherScripts : list Script)
    (modulesToParse : list string) (parsedModules : list ParsedModule)
  : option (Result (list ParsedModule)) :=
  match fuel with
  | O => None
  | S fuel' =>
      match modulesToParse with
      | [] => Some (Return parsedModules)
      | pathToParse :: modulesToParse =>
          let normalizedPath := normalizedPath pathToParse in
          if Js.includes (map pm_filePath parsedModules) normalizedPath
          then parseAll_loop fuel' otherScripts modulesToParse parsedModules
          else
            let code :=
              if Js.startsWith pathToParse "https://"
                 || Js.startsWith pathToParse "http://"
              then code ← resolveExternalModule pathToParse; Return (Some code)
              else Return (code <$> List.find
                             (λ s, areImportsEquals (filename s) normalizedPath)
                             otherScripts) in
            match code with
            | Throw error => Some (Throw error)
            | Return None =>
                Some (Throw (RamCalculationException
                               RamCalculationErrorCode.ImportError
                               ("Imported module " +:+ normalizedPath
                                  +:+ " can't be found")))
            | Return (Some code) =>
                match parseScript normalizedPath code with
                | Throw error => Some (Throw error)
                | Return result =>
                    parseAll_loop fuel' otherScripts
                      (modulesToParse
                         ++ map im_filePath (importedModules result))
                      (parsedModules ++ [result])
                end
            end
      end
  end.

(** [InvocationTreeBuilder.parseAll]; [this] is the builder's
    [#parsedModules] at the call, which is [[]] for a builder just made by
    [new InvocationTreeBuilder()].  The array returned is the builder's own. *)
Definition parseAll (fuel : nat) (this : list ParsedModule)
    (initialCode : string) (otherScripts : list Script)
  : option (Result (list ParsedModule)) :=
  match parseScript "" initialCode with
  | Throw error => Some (Throw error)
  | Return result =>
      parseAll_loop fuel otherScripts
        (Lodash.uniq (map im_filePath (importedModules result)))
        (this ++ [result])
  end.

Definition new_InvocationTreeBuilder : list ParsedModule := [].

(** *** Reachability: [findAllCalledFunctions] *)

Definition found {A} (o : option A) : bool :=
  match o with Some _ => true | None => false end.

Definition isAlreadyProcessed
    (resolvedFunctions unresolvedFunctions : list DefinedFunction)
    (newFn : DefinedFunction) : bool :=
  found (List.find (λ cf, isEqual newFn cf) resolvedFunctions)
  || found (List.find (λ cf, isEqual newFn cf) unresolvedFunctions).

(** The definition of [current], looked up in its own module and then
    through that module's imports ([currentFn] in the source). *)
Definition findDefinition (modules : list ParsedModule)
    (currentModule : ParsedModule) (current : DefinedFunction)
  : option FunctionTreeNode :=
  match List.find (λ ft, isEqual (fn ft) current) (functionTree currentModule)
  with
  | Some fnFromCurrentFile => Some fnFromCurrentFile
  | None =>
      let importReference :=
        List.find
          (λ m, String.eqb (alias m) (namespace current)
                && (Js.includes (imports m) (name current)
                    || Js.includes (imports m) "*"))
          (importedModules currentModule) in
      importModule ←
        (r ← importReference;
         List.find (λ m, String.eqb (pm_filePath m) (im_filePath r)) modules);
      List.find
        (λ ft, String.eqb (name (fn ft)) (name current)
               && String.eqb (namespace (fn ft)) "")
        (functionTree importModule)
  end.

(** The [while] loop of [findAllCalledFunctions] on its three arrays;
    [fuel] bounds the number of iterations. *)
Fixpoint findAllCalledFunctions_loop (fuel : nat) (modules : list ParsedModule)
    (toProcess resolvedFunctions unresolvedFunctions : list DefinedFunction)
  : option FunctionCalls :=
  match fuel with
  | O => None
  | S fuel' =>
      match toProcess with
      | [] => Some (mkFunctionCalls resolvedFunctions unresolvedFunctions)
      | current :: toProcess =>
          match List.find
                  (λ m, String.eqb (pm_filePath m) (filePath current)) modules
          with
          | None =>
              findAllCalledFunctions_loop fuel' modules toProcess
                resolvedFunctions unresolvedFunctions
          | Some currentModule =>
              match findDefinition modules currentModule current with
              | Some currentFn =>
                  let dependencies := calledFunctions currentFn in
                  let newDependencies :=
                    List.filter
                      (λ d, negb (isAlreadyProcessed resolvedFunctions
                                    unresolvedFunctions d))
                      dependencies in
                  findAllCalledFunctions_loop fuel' modules
                    (toProcess ++ newDependencies)
                    (resolvedFunctions ++ [current]) unresolvedFunctions
              | None =>
                  findAllCalledFunctions_loop fuel' modules toProcess
                    resolvedFunctions (unresolvedFunctions ++ [current])
              end
          end
      end
  end.

Definition defaultEntryPoint : DefinedFunction := mkDefinedFunction "main" "" "".

Definition findAllCalledFunctions (fuel : nat) (modules : list ParsedModule)
    (entryPoint : DefinedFunction) : option FunctionCalls :=
  findAllCalledFunctions_loop fuel modules [entryPoint] [] [].

(** Every push onto [toProcess] in a run of the loop, in order: the same
    walk as [findAllCalledFunctions_loop], returning what was enqueued
    instead of the two result arrays. *)
Fixpoint enqueued_loop (fuel : nat) (modules : list ParsedModule)
    (toProcess resolvedFunctions unresolvedFunctions : list DefinedFunction)
  : option (list DefinedFunction) :=
  match fuel with
  | O => None
  | S fuel' =>
      match toProcess with
      | [] => Some []
      | current :: toProcess =>
          match List.find
                  (λ m, String.eqb (pm_filePath m) (filePath current)) modules
          with
          | None =>
              enqueued_loop fuel' modules toProcess
                resolvedFunctions unresolvedFunctions
          | Some currentModule =>
              match findDefinition modules currentModule current with
              | Some currentFn =>
                  let newDependencies :=
                    List.filter
                      (λ d, negb (isAlreadyProcessed resolvedFunctions
                                    unresolvedFunctions d))
                      (calledFunctions currentFn) in
                  app newDependencies <$>
                    enqueued_loop fuel' modules (toProcess ++ newDependencies)
                      (resolvedFunctions ++ [current]) unresolvedFunctions
              | None =>
                  enqueued_loop fuel' modules toProcess
                    resolvedFunctions (unresolvedFunctions ++ [current])
              end
          end
      end
  end.

Definition enqueued (fuel : nat) (modules : list ParsedModule)
    (entryPoint : DefinedFunction) : option (list DefinedFunction) :=
  cons entryPoint <$> enqueued_loop fuel modules [entryPoint] [] [].

(** *** The top-level operation *)

(** The body of the [try] block of [calculateRamUsage]; one [fuel] bounds
    each of the two loops. *)
Definition calculateRamUsage_try (fuel : nat) (player : IPlayer)
    (codeCopy : string) (otherScripts : list Script)
  : option (Result RamCalculation) :=
  match parseAll fuel new_InvocationTreeBuilder codeCopy otherScripts with
  | None => None
  | Some (Throw error) => Some (Throw error)
  | Some (Return parseResults) =>
      allCalledFunctions ←
        findAllCalledFunctions fuel parseResults defaultEntryPoint;
      Some (calculateRamCost RamCosts RamCostConstants player
              (unresolvedFunctions allCalledFunctions))
  end.

Definition calculateRamUsage (fuel : nat) (player : IPlayer)
    (codeCopy : string) (otherScripts : list Script) : option RamCalculation :=
  outcome ← calculateRamUsage_try fuel player codeCopy otherScripts;
  match outcome with
  | Return calculation => Some calculation
  | Throw error =>
      let errorCode :=
        nullish (Thrown_code error) RamCalculationErrorCode.SyntaxError in
      Some (mkRamCalculation (Js.Number (errorCodeValue errorCode)) None)
  end.

End Analyser.

(** ** The editor's check for loops without [await]: [checkInfiniteLoop]

    What [checkInfiniteLoop] reads of a syntax tree: a literal and its raw
    text, an [await], a [while] statement with the offset at which it starts,
    and, for every other type of node, the children that the default walker
    of [walk.recursive] visits, in the order it visits them. *)
Module LoopTree.

Inductive Node : Type :=
| Literal (raw : string)
| AwaitExpression (argument : Node)
| WhileStatement (start : nat) (test body : Node)
| Other (children : list Node).

End LoopTree.

(** [node.type === "Literal" && node.raw === "true"] *)
Definition nodeHasTrueTest (node : LoopTree.Node) : bool :=
  match node with
  | LoopTree.Literal raw => String.eqb raw "true"
  | _ => false
  end.

(** The walk of [hasAwait] on the variable [hasAwait]: the visitor of
    [AwaitExpression] sets it and goes no deeper; a [while] statement is
    walked by the default walker, test first. *)
Fixpoint hasAwait_walk (ast : LoopTree.Node) (hasAwait : bool) : bool :=
  match ast with
  | LoopTree.Literal _ => hasAwait
  | LoopTree.AwaitExpression _ => true
  | LoopTree.WhileStatement _ test body =>
      hasAwait_walk body (hasAwait_walk test hasAwait)
  | LoopTree.Other children =>
      (fix each (nodes : list LoopTree.Node) (hasAwait : bool) : bool :=
         match nodes with
         | [] => hasAwait
         | node :: nodes => each nodes (hasAwait_walk node hasAwait)
         end) children hasAwait
  end.

Definition hasAwait (ast : LoopTree.Node) : bool := hasAwait_walk ast false.

(** [(code.slice(0, start).match(/\n/g) || []).length + 1] *)
Fixpoint newlines (s : string) : nat :=
  match s with
  | EmptyString => 0
  | String c s' => (if Ascii.eqb c "010" then 1 else 0) + newlines s'
  end.

Definition lineOf (code : string) (start : nat) : Z :=
  (Z.of_nat (newlines (String.substring 0 start code)) + 1)%Z.

(** The main walk on the variable [missingAwaitLine].  The visitor of
    [WhileStatement] replaces the default one: it never walks the test, and
    walks the body (an object, so truthy) only of a loop it does not flag. *)
Fixpoint checkInfiniteLoop_walk (code : string) (node : LoopTree.Node)
    (missingAwaitLine : Z) : Z :=
  match node with
  | LoopTree.Literal _ => missingAwaitLine
  | LoopTree.AwaitExpression argument =>
      checkInfiniteLoop_walk code argument missingAwaitLine
  | LoopTree.WhileStatement start test body =>
      if nodeHasTrueTest test && negb (hasAwait node)
      then lineOf code start
      else checkInfiniteLoop_walk code body missingAwaitLine
  | LoopTree.Other children =>
      (fix each (nodes : list LoopTree.Node) (missingAwaitLine : Z) : Z :=
         match nodes with
         | [] => missingAwaitLine
         | node :: nodes =>
             each nodes (checkInfiniteLoop_walk code node missingAwaitLine)
         end) children missingAwaitLine
  end.

(** [checkInfiniteLoop]; [parse] is the front end, [None] where it throws a
    [SyntaxError], which the function lets through. *)
Definition checkInfiniteLoop (parse : string → option LoopTree.Node)
    (code : string) : Result Z :=
  match parse code with
  | None => Throw AcornSyntaxError
  | Some ast => Return (checkInfiniteLoop_walk code ast (-1)%Z)
  end.

(** ** A concrete host

    A player, a cost table of the shape of [RamCosts] (top-level functions,
    the [stanek] and [sleeve] sub-APIs), the constants, the error codes, a
    file-name predicate and the front end on the sources used below, given by
    their trees; any other text is rejected by this front end. *)
Module Demo.

Import Acorn.

Definition dq : string := String (Ascii.ascii_of_nat 34) "".

Definition Player : Type := nat.

Definition RamCostConstants : RamCostConstantsT :=
  mkRamCostConstants (16 # 10) 4%Q 25%Q (10224 # 10).

Definition ScriptHackRamCost : Q := 1 # 10.
Definition ScriptGrowRamCost : Q := 15 # 100.
Definition ScriptStanekFragmentAt : Q := 2%Q.
Definition ScriptStanekWidth : Q := 4 # 10.
Definition ScriptSleeveBaseRamCost : Q := 4%Q.
Definition ScriptSingularityFn1RamCost : Q := 2%Q.

Definition RamCosts : gmap string (RamCostValue Player) :=
  {[ "hack" := CostLeaf (CostNumber ScriptHackRamCost);
     "grow" := CostLeaf (CostNumber ScriptGrowRamCost);
     "print" := CostLeaf (CostNumber 0%Q);
     "universityCourse" :=
       CostLeaf (CostFunction
                   (λ p, (ScriptSingularityFn1RamCost * inject_Z (Z.of_nat p))%Q));
     "stanek" :=
       CostSubApi {[ "get" := CostNumber ScriptStanekFragmentAt;
                     "width" := CostNumber ScriptStanekWidth ]};
     "sleeve" := CostSubApi {[ "getTask" := CostNumber ScriptSleeveBaseRamCost ]}
  ]}.

Definition errorCodeValue (code : RamCalculationErrorCode.t) : Q :=
  match code with
  | RamCalculationErrorCode.SyntaxError => (-1)%Q
  | RamCalculationErrorCode.ImportError => (-2)%Q
  | RamCalculationErrorCode.URLImportError => (-3)%Q
  end.

Definition areImportsEquals (f0 f1 : string) : bool := String.eqb f0 f1.

Definition dynamicImport (moduleUrl : string) : list string + string :=
  inr "TypeError: Failed to fetch dynamically imported module".

(** [export async function main(ns){ body }] *)
Definition main_of (body : list Node) : Node :=
  ExportNamedDeclaration
    (Some (FunctionDeclaration (Some "main") [Identifier "ns"]
             (BlockStatement body))).

(** [await ns.hack("x");] *)
Definition await_ns_hack : Node :=
  ExpressionStatement
    (AwaitExpression
       (CallExpression (MemberExpression (Identifier "ns") "hack")
          [Literal (dq +:+ "x" +:+ dq)])).

Definition src_empty_main : string := "export async function main(ns){}".
Definition ast_empty_main : Node := Program [main_of []].

Definition src_hack_twice : string :=
  "export async function main(ns){ await ns.hack(" +:+ dq +:+ "x" +:+ dq
  +:+ "); await ns.hack(" +:+ dq +:+ "x" +:+ dq +:+ "); }".
Definition ast_hack_twice : Node :=
  Program [main_of [await_ns_hack; await_ns_hack]].

Definition src_import_default : string :=
  "import X from " +:+ dq +:+ "lib" +:+ dq.
Definition ast_import_default : Node :=
  Program [ImportDeclaration [ImportDefaultSpecifier "X"] "lib"].

Definition src_import_named : string :=
  "import {a, b} from " +:+ dq +:+ "lib" +:+ dq.
Definition ast_import_named : Node :=
  Program [ImportDeclaration [ImportSpecifier "a" "a"; ImportSpecifier "b" "b"]
             "lib"].

Definition src_import_namespace : string :=
  "import * as X from " +:+ dq +:+ "lib" +:+ dq.
Definition ast_import_namespace : Node :=
  Program [ImportDeclaration [ImportNamespaceSpecifier "X"] "lib"].

(** Rejected by the front end: the function body is not closed. *)
Definition src_unclosed : string := "export async function main(ns){".

(** [ns.args.includes("x")]: the call is recorded under the namespace
    [ns.args]. *)
Definition src_args_includes : string :=
  "export async function main(ns){ ns.args.includes(" +:+ dq +:+ "x" +:+ dq
  +:+ "); }".
Definition ast_args_includes : Node :=
  Program
    [main_of
       [ExpressionStatement
          (CallExpression
             (MemberExpression (MemberExpression (Identifier "ns") "args")
                "includes")
             [Literal (dq +:+ "x" +:+ dq)])]].

(** The script of the test "Reference to namespace based on a variable". *)
Definition src_stanek_variable : string :=
  "export async function main(ns){ const stn = ns.stanek; stn.get(0, 0); }".
Definition ast_stanek_variable : Node :=
  Program
    [main_of
       [VariableDeclaration
          [VariableDeclarator (Identifier "stn")
             (Some (MemberExpression (Identifier "ns") "stanek"))];
        ExpressionStatement
          (CallExpression (MemberExpression (Identifier "stn") "get")
             [Literal "0"; Literal "0"])]].

(** An entry point and two library scripts that import each other. *)
Definition src_cyclic_main : string :=
  "import {f} from " +:+ dq +:+ "./a" +:+ dq
  +:+ "; export async function main(ns){ f(ns); }".
Definition ast_cyclic_main : Node :=
  Program
    [ImportDeclaration [ImportSpecifier "f" "f"] "./a";
     main_of [ExpressionStatement
                (CallExpression (Identifier "f") [Identifier "ns"])]].

Definition src_cyclic_a : string :=
  "import {g} from " +:+ dq +:+ "b" +:+ dq
  +:+ "; export function f(ns){ g(ns); }".
Definition ast_cyclic_a : Node :=
  Program
    [ImportDeclaration [ImportSpecifier "g" "g"] "b";
     ExportNamedDeclaration
       (Some (FunctionDeclaration (Some "f") [Identifier "ns"]
                (BlockStatement
                   [ExpressionStatement
                      (CallExpression (Identifier "g") [Identifier "ns"])])))].

Definition src_cyclic_b : string :=
  "import {f} from " +:+ dq +:+ "./a" +:+ dq
  +:+ "; export function g(ns){ f(ns); }".
Definition ast_cyclic_b : Node :=
  Program
    [ImportDeclaration [ImportSpecifier "f" "f"] "./a";
     ExportNamedDeclaration
       (Some (FunctionDeclaration (Some "g") [Identifier "ns"]
                (BlockStatement
                   [ExpressionStatement
                      (CallExpression (Identifier "f") [Identifier "ns"])])))].

Definition cyclic_scripts : list Script :=
  [mkScript "a" src_cyclic_a; mkScript "b" src_cyclic_b].

(** An import that no script of the file set answers. *)
Definition src_missing_import : string :=
  "import {f} from " +:+ dq +:+ "nowhere" +:+ dq
  +:+ "; export async function main(ns){}".
Definition ast_missing_import : Node :=
  Program [ImportDeclaration [ImportSpecifier "f" "f"] "nowhere"; main_of []].

Definition parse (code : string) : option Node :=
  snd <$> List.find (λ entry, String.eqb code (fst entry))
    [ (src_empty_main, ast_empty_main);
      (src_hack_twice, ast_hack_twice);
      (src_import_default, ast_import_default);
      (src_import_named, ast_import_named);
      (src_import_namespace, ast_import_namespace);
      (src_args_includes, ast_args_includes);
      (src_stanek_variable, ast_stanek_variable);
      (src_cyclic_main, ast_cyclic_main);
      (src_cyclic_a, ast_cyclic_a);
      (src_cyclic_b, ast_cyclic_b);
      (src_missing_import, ast_missing_import) ].

(** The analyser on this host. *)
Definition calculateRamUsage :=
  calculateRamUsage RamCosts RamCostConstants errorCodeValue parse
    areImportsEquals dynamicImport.

Definition calculateRamUsage_try :=
  calculateRamUsage_try RamCosts RamCostConstants parse areImportsEquals
    dynamicImport.

Definition parseAll := parseAll parse areImportsEquals dynamicImport.

Definition parseScript := parseScript parse.

(** The module [parseScript] makes of the twice-hacking script. *)
Definition module_hack_twice : ParsedModule :=
  mkParsedModule "" []
    [mkFunctionTreeNode (mkDefinedFunction "main" "" "")
       [mkDefinedFunction "hack" "ns" ""; mkDefinedFunction "hack" "ns" "";
        mkDefinedFunction "hack" "ns" ""; mkDefinedFunction "hack" "ns" ""]].

End Demo.

(** ** Further sample scripts *)
Module Samples.

(** A function called where it is written: the callee has no name. *)
Definition src_immediate : string :=
  "async function main(ns){ (function(){})(); }".
Definition ast_immediate : Acorn.Node :=
  Acorn.Program
    [Acorn.FunctionDeclaration (Some "main") [Acorn.Identifier "ns"]
       (Acorn.BlockStatement
          [Acorn.ExpressionStatement
             (Acorn.CallExpression
                (Acorn.FunctionExpression [] (Acorn.BlockStatement []))
                [])])].

Definition parse (code : string) : option Acorn.Node :=
  if String.eqb code src_immediate then Some ast_immediate else None.

(** A loop that never yields on line 2, one that does on line 3. *)
Definition src_busy : string :=
  "async function main(ns){" +:+ newline
  +:+ "  while(true){ ns.print(1); }" +:+ newline
  +:+ "  while(true){ await ns.sleep(1); }" +:+ newline
  +:+ "}".

(** [ns.f(1);] as the default walker sees it: the statement, the call, the
    member access with its object, the argument. *)
Definition call_ns (argument : LoopTree.Node) : LoopTree.Node :=
  LoopTree.Other
    [LoopTree.Other [LoopTree.Other [LoopTree.Other []]; argument]].

Definition ast_busy : LoopTree.Node :=
  LoopTree.Other
    [LoopTree.Other
       [LoopTree.Other [];
        LoopTree.Other [];
        LoopTree.Other
          [LoopTree.WhileStatement 27 (LoopTree.Literal "true")
             (LoopTree.Other [call_ns (LoopTree.Literal "1")]);
           LoopTree.WhileStatement 57 (LoopTree.Literal "true")
             (LoopTree.Other
                [LoopTree.Other
                   [LoopTree.AwaitExpression
                      (LoopTree.Other
                         [LoopTree.Other [LoopTree.Other []];
                          LoopTree.Literal "1"])]])]]].

(** Two loops that never yield, on lines 1 and 2. *)
Definition src_busy_twice : string :=
  "while(true){}" +:+ newline +:+ "while(true){}".
Definition ast_busy_twice : LoopTree.Node :=
  LoopTree.Other
    [LoopTree.WhileStatement 0 (LoopTree.Literal "true") (LoopTree.Other []);
     LoopTree.WhileStatement 14 (LoopTree.Literal "true") (LoopTree.Other [])].

Definition parseLoops (code : string) : option LoopTree.Node :=
  if String.eqb code src_busy then Some ast_busy
  else if String.eqb code src_busy_twice then Some ast_busy_twice
  else None.

End Samples.


(** ** Notions used in the statements *)

(** What the accumulator of [baseSum] can be once a number has been added. *)
Definition running (v : Js.value) : Prop :=
  match v with
  | Js.Number _ | Js.NaN | Js.String_ => True
  | Js.Undefined | Js.Object => False
  end.

(** Whether [current] is recorded as resolved depends on the modules and on
    [current] alone, never on what has been recorded before. *)
Definition resolves (modules : list ParsedModule) (current : DefinedFunction)
  : Prop :=
  ∃ currentModule currentFn,
    List.find (λ m, String.eqb (pm_filePath m) (filePath current)) modules
    = Some currentModule
    ∧ findDefinition modules currentModule current = Some currentFn.

(** Every function that can ever be on the worklist: the entry point and the
    called functions of the modules' function trees. *)
Definition universe (modules : list ParsedModule) (entryPoint : DefinedFunction)
  : list DefinedFunction :=
  entryPoint :: (modules ≫= functionTree) ≫= calledFunctions.

(** The number of places of the universe not yet covered by [A]. *)
Definition uncovered (univ A : list DefinedFunction) : nat :=
  length (List.filter (λ u, negb (bool_decide (u ∈ A))) univ).

(** A module of the output list answers an import specifier found in the
    list: its file path is the normalized specifier, and it is what
    [parseScript] makes, under that path, of the code found for it. *)
Definition answers (parse : string → option Acorn.Node)
    (modules : list ParsedModule) (m : ParsedModule) : Prop :=
  ∃ pathToParse code importer,
    importer ∈ modules
    ∧ pathToParse ∈ map im_filePath (importedModules importer)
    ∧ pm_filePath m = normalizedPath pathToParse
    ∧ parseScript parse (normalizedPath pathToParse) code = Return m.

(** Some module carries the file path of [current]. *)
Definition hasModule (modules : list ParsedModule) (current : DefinedFunction)
  : Prop :=
  is_Some
    (List.find (λ m, String.eqb (pm_filePath m) (filePath current)) modules).

(** The call graph the traversal walks: the entry point, and the called
    functions of the definition found for a function that is reached. *)
Inductive reaches (modules : list ParsedModule) (entryPoint : DefinedFunction)
  : DefinedFunction → Prop :=
| reaches_entry : reaches modules entryPoint entryPoint
| reaches_call current currentModule currentFn d :
    reaches modules entryPoint current →
    List.find (λ m, String.eqb (pm_filePath m) (filePath current)) modules
    = Some currentModule →
    findDefinition modules currentModule current = Some currentFn →
    d ∈ calledFunctions currentFn →
    reaches modules entryPoint d.

(** What is owed to the worklist: the entry point and the called functions
    of every resolved function are recorded, still enqueued, or without a
    module. *)
Definition owed (modules : list ParsedModule) (q R U : list DefinedFunction)
    (d : DefinedFunction) : Prop :=
  d ∈ R ++ U ++ q ∨ ¬ hasModule modules d.

(** The number a leaf of the cost table stands for, for a given player. *)
Definition leafCost {IPlayer : Type} (player : IPlayer)
    (l : RamCostLeaf IPlayer) : Q :=
  match l with
  | CostNumber n => n
  | CostFunction f => f player
  end.

(** [fn] under another namespace (the receiver written at the call site). *)
Definition withNamespace (old new : string) (fn : DefinedFunction)
  : DefinedFunction :=
  if String.eqb (namespace fn) old
  then mkDefinedFunction (name fn) new (filePath fn)
  else fn.

(** A namespace that is none of the special names and has no dot. *)
Definition plainNamespace (RamCostConstants : RamCostConstantsT) (ns : string)
  : Prop :=
  (ns ∉ map entry_name (specialKeyChecks RamCostConstants))
  ∧ length (Js.split_dot ns) ≤ 1.

(** [state] with the calls [pairs] (name, namespace) recorded after its own,
    each labelled with the file path of [state]. *)
Definition appendCalls (state : WithinFunctionParseState)
    (pairs : list (string * string)) : WithinFunctionParseState :=
  mkWithinFunctionParseState (currentFunction state)
    (currentCalledFunctions state
       ++ map (λ p, mkDefinedFunction p.1 p.2 (wf_filePath state)) pairs)
    (wf_filePath state).

(** A step of the walk inside a function that does nothing but record calls
    which depend on the tree alone, or throws whatever the state. *)
Definition Uniform
    (f : WithinFunctionParseState → option WithinFunctionParseState) : Prop :=
  ∃ r : option (list (string * string)),
    ∀ state, f state = appendCalls state <$> r.

(** [d] and a function tree node under another file path. *)
Definition relabel (filePath : string) (d : DefinedFunction) : DefinedFunction :=
  mkDefinedFunction (name d) (namespace d) filePath.

Definition relabelNode (filePath : string) (ft : FunctionTreeNode)
  : FunctionTreeNode :=
  mkFunctionTreeNode (relabel filePath (fn ft))
    (map (relabel filePath) (calledFunctions ft)).

Definition relabelModule (filePath : string) (m : ParsedModule) : ParsedModule :=
  mkParsedModule filePath (importedModules m)
    (map (relabelNode filePath) (functionTree m)).

(** [state] with imports and declarations (a name and its recorded calls)
    added, the declarations labelled with [filePath]. *)
Definition extendTop (filePath : string) (state : TopLevelParseState)
    (delta : list ImportedModule * list (string * list (string * string)))
  : TopLevelParseState :=
  mkTopLevelParseState
    (tl_functionTree state
       ++ map (λ nf, mkFunctionTreeNode (mkDefinedFunction nf.1 "" filePath)
                       (map (λ p, mkDefinedFunction p.1 p.2 filePath) nf.2))
            delta.2)
    (tl_importedModules state ++ delta.1).

Definition UniformTop
    (f : string → TopLevelParseState → option TopLevelParseState) : Prop :=
  ∃ r : option (list ImportedModule * list (string * list (string * string))),
    ∀ filePath state, f filePath state = extendTop filePath state <$> r.

(** The import specifiers of a module, as written. *)
Definition specifiersOf (m : ParsedModule) : list string :=
  map im_filePath (importedModules m).

(** The test of [parseAll] for a remote module. *)
Definition isUrl (pathToParse : string) : bool :=
  Js.startsWith pathToParse "https://" || Js.startsWith pathToParse "http://".

(** The import specifiers written in a source text (none if it does not
    parse), and those of an entry point and a file set together. *)
Definition specifiersIn (parse : string → option Acorn.Node) (code : string)
  : list string :=
  match parseScript parse "" code with
  | Return m => specifiersOf m
  | Throw _ => []
  end.

Definition allSpecifiers (parse : string → option Acorn.Node)
    (initialCode : string) (otherScripts : list Script) : list string :=
  specifiersIn parse initialCode
    ++ (otherScripts ≫= λ s, specifiersIn parse (code s)).

(** The number of places of [univ] that [cover] does not hold. *)
Definition uncoveredBy (univ cover : list string) : nat :=
  length (List.filter (λ u, negb (bool_decide (u ∈ cover))) univ).

(** [inside ast node]: [node] is [ast] or below it. *)
Inductive inside : LoopTree.Node → LoopTree.Node → Prop :=
| inside_here ast : inside ast ast
| inside_argument argument node :
    inside argument node → inside (LoopTree.AwaitExpression argument) node
| inside_test start test body node :
    inside test node → inside (LoopTree.WhileStatement start test body) node
| inside_body start test body node :
    inside body node → inside (LoopTree.WhileStatement start test body) node
| inside_child children child node :
    child ∈ children → inside child node →
    inside (LoopTree.Other children) node.

(** [inside], but never through the test of a [while] statement. *)
Inductive besideTests : LoopTree.Node → LoopTree.Node → Prop :=
| beside_here ast : besideTests ast ast
| beside_argument argument node :
    besideTests argument node →
    besideTests (LoopTree.AwaitExpression argument) node
| beside_body start test body node :
    besideTests body node →
    besideTests (LoopTree.WhileStatement start test body) node
| beside_child children child node :
    child ∈ children → besideTests child node →
    besideTests (LoopTree.Other children) node.

Definition holdsAwait (node : LoopTree.Node) : Prop :=
  ∃ argument, inside node (LoopTree.AwaitExpression argument).

(** A [while (true)] statement with no [await] anywhere in it. *)
Definition busyLoop (node : LoopTree.Node) : Prop :=
  match node with
  | LoopTree.WhileStatement _ test _ =>
      nodeHasTrueTest test = true ∧ ¬ holdsAwait node
  | _ => False
  end.

Definition startOf (node : LoopTree.Node) : nat :=
  match node with LoopTree.WhileStatement start _ _ => start | _ => 0 end.

(** [node] with the arguments of every call and every [new] removed. *)
Fixpoint withoutArguments (node : Acorn.Node) : Acorn.Node :=
  match node with
  | Acorn.Identifier _ | Acorn.Literal _ | Acorn.ThisExpression
  | Acorn.ImportDeclaration _ _ => node
  | Acorn.MemberExpression object property =>
      Acorn.MemberExpression (withoutArguments object) property
  | Acorn.CallExpression callee _ =>
      Acorn.CallExpression (withoutArguments callee) []
  | Acorn.NewExpression callee _ =>
      Acorn.NewExpression (withoutArguments callee) []
  | Acorn.AwaitExpression argument =>
      Acorn.AwaitExpression (withoutArguments argument)
  | Acorn.ArrayExpression elements =>
      Acorn.ArrayExpression (List.map withoutArguments elements)
  | Acorn.FunctionExpression params body =>
      Acorn.FunctionExpression (List.map withoutArguments params)
        (withoutArguments body)
  | Acorn.ExpressionStatement expression =>
      Acorn.ExpressionStatement (withoutArguments expression)
  | Acorn.ReturnStatement argument =>
      Acorn.ReturnStatement (option_map withoutArguments argument)
  | Acorn.VariableDeclaration declarations =>
      Acorn.VariableDeclaration (List.map withoutArguments declarations)
  | Acorn.VariableDeclarator id init =>
      Acorn.VariableDeclarator (withoutArguments id)
        (option_map withoutArguments init)
  | Acorn.BlockStatement body =>
      Acorn.BlockStatement (List.map withoutArguments body)
  | Acorn.FunctionDeclaration id params body =>
      Acorn.FunctionDeclaration id (List.map withoutArguments params)
        (withoutArguments body)
  | Acorn.ClassDeclaration id body =>
      Acorn.ClassDeclaration id (withoutArguments body)
  | Acorn.ClassBody body => Acorn.ClassBody (List.map withoutArguments body)
  | Acorn.MethodDefinition key value =>
      Acorn.MethodDefinition key (withoutArguments value)
  | Acorn.PropertyDefinition key value =>
      Acorn.PropertyDefinition key (option_map withoutArguments value)
  | Acorn.ExportNamedDeclaration declaration =>
      Acorn.ExportNamedDeclaration (option_map withoutArguments declaration)
  | Acorn.ExportDefaultDeclaration declaration =>
      Acorn.ExportDefaultDeclaration (withoutArguments declaration)
  | Acorn.Program body => Acorn.Program (List.map withoutArguments body)
  end.

(** * Properties *)

(** ** Lodash helpers *)

Lemma baseUniq_app {A} (c : A → A → bool) (a1 a2 seen : list A) :
  Lodash.baseUniq c (a1 ++ a2) seen
  = Lodash.baseUniq c a2 (Lodash.baseUniq c a1 seen).
Proof.
  revert seen. induction a1 as [|v a1 IH]; intros seen; simpl; [done|].
  destruct (existsb (c v) seen); apply IH.
Qed.

Section Uniq.

(** A comparator that decides equality, as [_.isEqual] does on
    [DefinedFunction] and [===] on strings. *)
Context {A : Type} (c : A → A → bool).
Hypothesis c_spec : ∀ x y, c x y = true ↔ x = y.

Lemma existsb_comparator (v : A) (seen : list A) :
  existsb (c v) seen = true ↔ v ∈ seen.
Proof.
  rewrite existsb_exists. split.
  - intros (x & Hx & ->%c_spec). by apply list_elem_of_In.
  - intros Hv. exists v. split; [by apply list_elem_of_In|]. by apply c_spec.
Qed.

Lemma baseUniq_elem_of (array seen : list A) x :
  x ∈ Lodash.baseUniq c array seen ↔ x ∈ seen ∨ x ∈ array.
Proof.
  revert seen. induction array as [|v array IH]; intros seen; simpl.
  - rewrite elem_of_nil. tauto.
  - destruct (existsb (c v) seen) eqn:E.
    + apply existsb_comparator in E. rewrite IH, elem_of_cons.
      split; [tauto|]. intros [?|[->|?]]; tauto.
    + rewrite IH, elem_of_app, list_elem_of_singleton, elem_of_cons. tauto.
Qed.

Lemma baseUniq_NoDup (array seen : list A) :
  NoDup seen → NoDup (Lodash.baseUniq c array seen).
Proof.
  revert seen. induction array as [|v array IH]; intros seen Hnd; simpl; [done|].
  destruct (existsb (c v) seen) eqn:E; [by apply IH|].
  apply IH. apply NoDup_app. split; [done|]. split.
  - intros x Hx ->%list_elem_of_singleton.
    apply existsb_comparator in Hx. congruence.
  - apply NoDup_singleton.
Qed.

Lemma baseUniq_fresh (array seen : list A) :
  NoDup (seen ++ array) → Lodash.baseUniq c array seen = seen ++ array.
Proof.
  revert seen. induction array as [|v array IH]; intros seen Hnd; simpl.
  - by rewrite app_nil_r.
  - destruct (existsb (c v) seen) eqn:E.
    + apply existsb_comparator in E. apply NoDup_app in Hnd as (_ & Hd & _).
      exfalso. apply (Hd v E). by left.
    + rewrite IH; [by rewrite <- app_assoc|]. by rewrite <- app_assoc.
Qed.

End Uniq.

Lemma isEqual_spec (a b : DefinedFunction) : isEqual a b = true ↔ a = b.
Proof. apply bool_decide_eq_true. Qed.

Lemma uniqWith_idempotent (functions : list DefinedFunction) :
  Lodash.uniqWith (Lodash.uniqWith functions isEqual) isEqual
  = Lodash.uniqWith functions isEqual.
Proof.
  unfold Lodash.uniqWith at 1.
  rewrite (baseUniq_fresh _ isEqual_spec); [done|]. simpl.
  apply (baseUniq_NoDup _ isEqual_spec), NoDup_nil_2.
Qed.

Lemma uniqWith_snoc (functions : list DefinedFunction) fn :
  Lodash.uniqWith (functions ++ [fn]) isEqual
  = if decide (fn ∈ functions) then Lodash.uniqWith functions isEqual
    else Lodash.uniqWith functions isEqual ++ [fn].
Proof.
  unfold Lodash.uniqWith. rewrite baseUniq_app. simpl.
  destruct (existsb _ _) eqn:E.
  - apply (existsb_comparator _ isEqual_spec),
      (baseUniq_elem_of _ isEqual_spec) in E as [E|E]; [by inversion E|].
    by rewrite decide_True.
  - rewrite decide_False; [done|]. intros Hin.
    assert (existsb (isEqual fn) (Lodash.baseUniq isEqual functions []) = true)
      as E'; [|congruence].
    apply (existsb_comparator _ isEqual_spec),
      (baseUniq_elem_of _ isEqual_spec). by right.
Qed.

Lemma includes_spec (l : list string) (x : string) :
  Js.includes l x = true ↔ x ∈ l.
Proof. apply existsb_comparator, String.eqb_eq. Qed.

(** ** The [Result] monad on lists *)

Lemma mapM_Result_cons {A B} (f : A → Result B) (x : A) (l : list A) :
  mapM f (x :: l)
  = match f x with
    | Return y => match mapM f l with
                  | Return k => Return (y :: k)
                  | Throw e => Throw e
                  end
    | Throw e => Throw e
    end.
Proof. reflexivity. Qed.

Lemma mapM_Return {A B} (f : A → Result B) (l : list A) (k : list B) :
  mapM f l = Return k ↔ Forall2 (λ x y, f x = Return y) l k.
Proof.
  revert k. induction l as [|x l IH]; intros k.
  - split.
    + intros [= <-]. constructor.
    + intros ->%Forall2_nil_inv_l. done.
  - rewrite mapM_Result_cons. split.
    + destruct (f x) as [y|e] eqn:Ef; [|done].
      destruct (mapM f l) as [k'|e] eqn:Em; [|done].
      intros [= <-]. constructor; [done|]. by apply IH.
    + intros (y & k' & Hy & Hk & ->)%Forall2_cons_inv_l.
      apply IH in Hk. by rewrite Hy, Hk.
Qed.

Lemma mapM_Result_app {A B} (f : A → Result B) (l1 l2 : list A) k1 k2 :
  mapM f l1 = Return k1 → mapM f l2 = Return k2 →
  mapM f (l1 ++ l2) = Return (k1 ++ k2).
Proof.
  rewrite !mapM_Return. apply Forall2_app.
Qed.

(** ** The sum of the entry costs *)

Lemma baseSum_app (l1 l2 : list Js.value) (acc : Js.value) :
  Lodash.baseSum (l1 ++ l2) acc = Lodash.baseSum l2 (Lodash.baseSum l1 acc).
Proof.
  revert acc. induction l1 as [|v l1 IH]; intros acc; simpl; [done|]. apply IH.
Qed.

Lemma sum_with_base (b : Q) (costs : list Js.value) :
  Lodash.sum (Js.Number b :: costs) = Lodash.baseSum costs (Js.Number b).
Proof. reflexivity. Qed.

Lemma baseSum_running (costs : list Js.value) (acc : Js.value) :
  running acc → running (Lodash.baseSum costs acc).
Proof.
  revert acc. induction costs as [|v costs IH]; intros acc Hacc; simpl; [done|].
  apply IH. destruct v, acc; simpl in *; done.
Qed.

Lemma Qplus_0_r_eq (q : Q) : (q + 0)%Q = q.
Proof.
  destruct q as [a b]. unfold Qplus. simpl.
  by rewrite Z.mul_1_r, Z.add_0_r, Pos.mul_1_r.
Qed.

Lemma plus_nothing (acc v : Js.value) :
  running acc → v = Js.Number 0 ∨ v = Js.Undefined →
  Lodash.baseSum [v] acc = acc.
Proof.
  intros Hacc [-> | ->]; destruct acc; simpl in *; try done.
  by rewrite Qplus_0_r_eq.
Qed.

(** With numeric, non-negative entry costs the sum is a number that is at
    least its starting value. *)
Lemma baseSum_floor (costs : list Js.value) (b acc : Q) :
  Forall (λ v, v = Js.Undefined ∨ ∃ q, v = Js.Number q ∧ (0 <= q)%Q) costs →
  (b <= acc)%Q →
  ∃ total, Lodash.baseSum costs (Js.Number acc) = Js.Number total
           ∧ (b <= total)%Q.
Proof.
  intros Hall. revert acc.
  induction Hall as [|v costs Hv _ IH]; intros acc Hacc; simpl.
  - eauto.
  - destruct Hv as [-> | (q & -> & Hq)]; simpl; apply IH; [done|lra].
Qed.

Section CostReducerProperties.

Context {IPlayer : Type}.
Variable RamCosts : gmap string (RamCostValue IPlayer).
Variable RamCostConstants : RamCostConstantsT.

#[local] Abbreviation costEntry' := (costEntry RamCosts RamCostConstants).
#[local] Abbreviation calculateRamCost' :=
  (calculateRamCost RamCosts RamCostConstants).

Lemma calculateRamCost_Return (player : IPlayer) functions r :
  calculateRamCost' player functions = Return r ↔
  ∃ es, mapM (costEntry' player) (Lodash.uniqWith functions isEqual) = Return es
        ∧ r = mkRamCalculation
                (Lodash.baseSum (map entry_cost es)
                   (Js.Number (ScriptBaseRamCost RamCostConstants)))
                (Some es).
Proof.
  unfold calculateRamCost, mbind, Result_bind.
  destruct (mapM _ _) as [es|e]; split.
  - intros [= <-]. by exists es.
  - intros (es' & [= <-] & ->). done.
  - done.
  - intros (? & ? & _). done.
Qed.

(** The entries of a result are those of the special names or have type
    [ns]; none is the base-cost entry. *)
Lemma costEntry_not_baseCost (player : IPlayer) fn e :
  costEntry' player fn = Return e → type e ≠ type_misc.
Proof.
  unfold costEntry.
  destruct (List.find _ _) as [sk|] eqn:Hfind.
  - intros [= <-]. apply find_some in Hfind as [Hin _].
    simpl in Hin. intuition subst; done.
  - repeat case_match; intros [= <-]; done.
Qed.

(** A cost table whose numbers are non-negative, and an unresolved set none
    of whose bare names is a sub-API key: the total is then a number, at
    least the base cost. *)
Lemma calculateRamCost_floor (player : IPlayer) functions r es :
  calculateRamCost' player functions = Return r →
  entries r = Some es →
  Forall (λ e, entry_cost e = Js.Undefined
               ∨ ∃ q, entry_cost e = Js.Number q ∧ (0 <= q)%Q) es →
  ∃ total, cost r = Js.Number total
           ∧ (ScriptBaseRamCost RamCostConstants <= total)%Q.
Proof.
  intros (es' & _ & ->)%calculateRamCost_Return [= <-] Hall. simpl.
  apply baseSum_floor; [|lra]. by apply Forall_fmap.
Qed.


End CostReducerProperties.

Section LookupFailures.

Context {IPlayer : Type}.
Variable RamCosts : gmap string (RamCostValue IPlayer).
Variable RamCostConstants : RamCostConstantsT.

Lemma specialKeyChecks_miss (ns : string) :
  ns ∉ map entry_name (specialKeyChecks RamCostConstants) →
  List.find (λ sk, String.eqb ns (entry_name sk))
    (specialKeyChecks RamCostConstants) = None.
Proof.
  intros Hns. unfold specialKeyChecks. simpl in *.
  repeat match goal with
         | |- context [String.eqb ns ?s] =>
             destruct (String.eqb_spec ns s) as [->|_];
             [exfalso; apply Hns, list_elem_of_In; simpl; tauto|]
         end.
  done.
Qed.


End LookupFailures.

(** The entries returned never hold the base-cost entry, although the cost
    returned is the sum over the list that starts with it. *)
Lemma calculateRamCost_entries_without_base {IPlayer : Type}
    (RamCosts : gmap string (RamCostValue IPlayer))
    (RamCostConstants : RamCostConstantsT) (player : IPlayer) functions r es :
  calculateRamCost RamCosts RamCostConstants player functions = Return r →
  entries r = Some es →
  (baseCost RamCostConstants ∉ es)
  ∧ cost r = Lodash.sum (map entry_cost (baseCost RamCostConstants :: es)).
Proof.
  intros (es' & Hes & ->)%calculateRamCost_Return [= <-]. split; [|done].
  intros Hin. apply mapM_Return in Hes.
  apply list_elem_of_lookup in Hin as [i Hi].
  destruct (Forall2_lookup_r _ _ _ _ _ Hes Hi) as (f & _ & Hf).
  by apply costEntry_not_baseCost in Hf.
Qed.

(** ** The cost reducer on the concrete host *)

(** Scenario 2 of the specification: two calls of [ns.hack] cost the base
    cost and the cost of [hack], once. *)
Example calculateRamUsage_hack_twice :
  Demo.calculateRamUsage 10 0 Demo.src_hack_twice []
  = Some (mkRamCalculation
            (Js.Number (ScriptBaseRamCost Demo.RamCostConstants
                        + Demo.ScriptHackRamCost))
            (Some [mkRamUsageEntry type_ns "hack"
                     (Js.Number Demo.ScriptHackRamCost)])).
Proof. by vm_compute. Qed.

Example parseScript_hack_twice :
  Demo.parseScript "" Demo.src_hack_twice = Return Demo.module_hack_twice.
Proof. by vm_compute. Qed.




(** C4 -- On the empty [main] the calculation returns the base cost and an
    empty entry list: the entry list returned is [entries], not
    [entriesWithBase], so the base-cost entry that was summed is not in it. *)
Theorem calculateRamUsage_empty_main (player : Demo.Player) :
  Demo.calculateRamUsage 10 player Demo.src_empty_main []
  = Some (mkRamCalculation
            (Js.Number (ScriptBaseRamCost Demo.RamCostConstants)) (Some [])).
Proof. vm_compute. reflexivity. Qed.

(** C1 -- On the script of the test "Reference to namespace based on a
    variable" the calculation completes without a thrown error and its cost
    is not a number: the bare name [stanek] reads the nested table of the
    sub-API out of the cost table, and the sum of the base cost and that
    object is a string. *)
Theorem calculateRamUsage_cost_not_a_number (player : Demo.Player) :
  let calculation :=
    mkRamCalculation Js.String_
      (Some [mkRamUsageEntry type_ns "stanek" Js.Object;
             mkRamUsageEntry type_ns "get" Js.Undefined]) in
  Demo.calculateRamUsage_try 10 player Demo.src_stanek_variable []
  = Some (Return calculation)
  ∧ Demo.calculateRamUsage 10 player Demo.src_stanek_variable []
    = Some calculation
  ∧ ¬ ∃ total, cost calculation = Js.Number total
               ∧ (ScriptBaseRamCost Demo.RamCostConstants <= total)%Q.
Proof.
  split; [by vm_compute|]. split; [by vm_compute|].
  intros (total & Hcost & _). discriminate Hcost.
Qed.

(** ** The reachability traversal *)

Lemma found_find_isEqual (d : DefinedFunction) (l : list DefinedFunction) :
  found (List.find (λ cf, isEqual d cf) l) = true ↔ d ∈ l.
Proof.
  unfold found. destruct (List.find _ l) as [x|] eqn:Hfind.
  - apply find_some in Hfind as [Hin ->%bool_decide_eq_true].
    split; [|done]. intros _. by apply list_elem_of_In.
  - split; [done|]. intros Hin%list_elem_of_In.
    apply (find_none _ _ Hfind) in Hin. unfold isEqual in Hin.
    by apply bool_decide_eq_false in Hin.
Qed.

Lemma isAlreadyProcessed_spec (R U : list DefinedFunction) d :
  isAlreadyProcessed R U d = true ↔ d ∈ R ++ U.
Proof.
  unfold isAlreadyProcessed.
  rewrite orb_true_iff, !found_find_isEqual, elem_of_app. done.
Qed.

Lemma findDefinition_universe modules entryPoint currentModule current currentFn d :
  List.find (λ m, String.eqb (pm_filePath m) (filePath current)) modules
  = Some currentModule →
  findDefinition modules currentModule current = Some currentFn →
  d ∈ calledFunctions currentFn →
  d ∈ universe modules entryPoint.
Proof.
  intros Hmod Hdef Hd. unfold universe. right.
  apply list_elem_of_bind. exists currentFn. split; [done|].
  apply list_elem_of_bind.
  apply find_some in Hmod as [Hmod _]. apply list_elem_of_In in Hmod.
  unfold findDefinition in Hdef.
  destruct (List.find _ (functionTree currentModule)) as [ft|] eqn:Hlocal.
  - injection Hdef as <-. exists currentModule. split; [|done].
    apply find_some in Hlocal as [Hin _]. by apply list_elem_of_In.
  - destruct (List.find _ (importedModules currentModule)) as [r|];
      simpl in Hdef; [|done].
    destruct (List.find _ modules) as [importModule|] eqn:Himp;
      simpl in Hdef; [|done].
    apply find_some in Himp as [Himp _], Hdef as [Hdef _].
    exists importModule. split; by apply list_elem_of_In.
Qed.

Lemma uncovered_mono univ A A' :
  (∀ x, x ∈ A → x ∈ A') → uncovered univ A' ≤ uncovered univ A.
Proof.
  intros Hsub. unfold uncovered. induction univ as [|u univ IH]; simpl; [done|].
  destruct (decide (u ∈ A)) as [Hu|Hu].
  - rewrite (bool_decide_eq_true_2 _ Hu), (bool_decide_eq_true_2 _ (Hsub _ Hu)).
    done.
  - rewrite (bool_decide_eq_false_2 _ Hu). simpl.
    destruct (bool_decide (u ∈ A')); simpl; lia.
Qed.

Lemma uncovered_strict univ A A' x :
  (∀ x, x ∈ A → x ∈ A') → x ∈ univ → x ∉ A → x ∈ A' →
  uncovered univ A' < uncovered univ A.
Proof.
  intros Hsub Hx HxA HxA'. unfold uncovered.
  induction Hx as [x univ | x u univ Hx IH]; simpl.
  - rewrite (bool_decide_eq_false_2 _ HxA), (bool_decide_eq_true_2 _ HxA').
    simpl. pose proof (uncovered_mono univ A A' Hsub) as Hle.
    unfold uncovered in Hle. lia.
  - destruct (decide (u ∈ A)) as [Hu|Hu].
    + rewrite (bool_decide_eq_true_2 _ Hu),
        (bool_decide_eq_true_2 _ (Hsub _ Hu)). simpl. by apply IH.
    + specialize (IH HxA HxA'). rewrite (bool_decide_eq_false_2 _ Hu). simpl.
      destruct (bool_decide (u ∈ A')); simpl; lia.
Qed.

Section Traversal.

Variable modules : list ParsedModule.
Variable entryPoint : DefinedFunction.

#[local] Abbreviation loop := (findAllCalledFunctions_loop).
#[local] Abbreviation univ := (universe modules entryPoint).

(** One pass over a prefix [q] of the worklist: after some iterations the
    loop has consumed [q] and appended [q'], the functions it enqueued on the
    way.  Nothing recorded is lost, what was enqueued was unrecorded when the
    pass began, and something was enqueued only if a function of [q] was
    recorded. *)
Lemma process_prefix (q rest R U : list DefinedFunction) :
  (∀ x, x ∈ q → x ∈ univ) →
  ∃ n q' R' U',
    (∀ fuel, loop (n + fuel) modules (q ++ rest) R U
             = loop fuel modules (rest ++ q') R' U')
    ∧ (∀ x, x ∈ R ++ U → x ∈ R' ++ U')
    ∧ (∀ y, y ∈ q' → y ∈ univ ∧ y ∉ R ++ U)
    ∧ (q' ≠ [] → ∃ x, x ∈ q ∧ x ∈ R' ++ U').
Proof.
  revert rest R U. induction q as [|x q IH]; intros rest R U Hq.
  - exists 0, [], R, U. simpl. rewrite app_nil_r.
    split; [done|]. split; [done|]. split; [|done].
    intros y Hy. by apply elem_of_nil in Hy.
  - assert (∀ x0, x0 ∈ q → x0 ∈ univ) as Hq' by (intros; apply Hq; by right).
    destruct (List.find (λ m, String.eqb (pm_filePath m) (filePath x)) modules)
      as [currentModule|] eqn:Hmod.
    + destruct (findDefinition modules currentModule x) as [currentFn|] eqn:Hdef.
      * set (new := List.filter (λ d, negb (isAlreadyProcessed R U d))
                      (calledFunctions currentFn)).
        destruct (IH (rest ++ new) (R ++ [x]) U Hq')
          as (n & q' & R' & U' & Hrun & Hsub & Hnew & _).
        exists (S n), (new ++ q'), R', U'. split; [|split; [|split]].
        -- intros fuel. simpl. rewrite Hmod, Hdef. fold new.
           rewrite <- app_assoc, Hrun. by rewrite <- app_assoc.
        -- intros y Hy. apply Hsub. revert Hy. rewrite !elem_of_app. tauto.
        -- intros y [Hy|Hy]%elem_of_app.
           ++ apply list_elem_of_In, filter_In in Hy as [Hy Hproc].
              apply list_elem_of_In in Hy. split.
              ** by eapply findDefinition_universe.
              ** intros Hin%isAlreadyProcessed_spec. by rewrite Hin in Hproc.
           ++ destruct (Hnew y Hy) as [? Hny]. split; [done|].
              revert Hny. rewrite !elem_of_app. tauto.
        -- intros _. exists x. split; [by left|]. apply Hsub.
           rewrite !elem_of_app, list_elem_of_singleton. tauto.
      * destruct (IH rest R (U ++ [x]) Hq')
          as (n & q' & R' & U' & Hrun & Hsub & Hnew & Hrec).
        exists (S n), q', R', U'. split; [|split; [|split]].
        -- intros fuel. simpl. by rewrite Hmod, Hdef, Hrun.
        -- intros y Hy. apply Hsub. revert Hy. rewrite !elem_of_app. tauto.
        -- intros y Hy. destruct (Hnew y Hy) as [? Hny].
           split; [done|]. revert Hny. rewrite !elem_of_app. tauto.
        -- intros Hne. destruct (Hrec Hne) as (y & ? & ?).
           exists y. split; [by right|done].
    + destruct (IH rest R U Hq')
        as (n & q' & R' & U' & Hrun & Hsub & Hnew & Hrec).
      exists (S n), q', R', U'. split; [|split; [|split]]; try done.
      * intros fuel. simpl. by rewrite Hmod, Hrun.
      * intros Hne. destruct (Hrec Hne) as (y & ? & ?).
        exists y. split; [by right|done].
Qed.

(** The loop ends: with every pass either nothing is enqueued, or a function
    that was unrecorded two passes ago is recorded now. *)
Lemma loop_total (k : nat) (q R U old : list DefinedFunction) :
  uncovered univ old + uncovered univ (R ++ U) ≤ k →
  (∀ x, x ∈ q → x ∈ univ ∧ x ∉ old) →
  (∀ x, x ∈ old → x ∈ R ++ U) →
  ∃ n calls, ∀ fuel, n ≤ fuel → loop fuel modules q R U = Some calls.
Proof.
  revert q R U old. induction k as [|k IH]; intros q R U old Hk Hq Hold.
  all: destruct (process_prefix q [] R U) as (n & q' & R' & U' & Hrun & Hsub
                                              & Hnew & Hrec);
    [intros x Hx; by apply Hq|].
  all: rewrite app_nil_r in Hrun; simpl in Hrun.
  all: destruct q' as [|y q'].
  1,3: exists (S n), (mkFunctionCalls R' U'); intros fuel Hfuel;
       replace fuel with (n + (fuel - n)) by lia; rewrite Hrun;
       destruct (fuel - n) eqn:E; [lia|done].
  all: destruct Hrec as (x & Hx & Hx'); [done|].
  all: destruct (Hq x Hx) as [Hxu Hxo].
  all: pose proof (uncovered_strict univ old (R' ++ U') x
                     (λ z Hz, Hsub z (Hold z Hz)) Hxu Hxo Hx') as Hlt.
  - lia.
  - destruct (IH (y :: q') R' U' (R ++ U)) as (n' & calls & Hn');
      [lia|done|done|].
    exists (n + n'), calls. intros fuel Hfuel.
    replace fuel with (n + (fuel - n)) by lia. rewrite Hrun.
    apply Hn'. lia.
Qed.

Lemma findAllCalledFunctions_total :
  ∃ n calls, ∀ fuel, n ≤ fuel →
    findAllCalledFunctions fuel modules entryPoint = Some calls.
Proof.
  apply (loop_total (uncovered univ [] + uncovered univ ([] ++ []))
           [entryPoint] [] [] []); [done| |].
  - intros x ->%list_elem_of_singleton. split; [by left|].
    intros Hx. by apply elem_of_nil in Hx.
  - intros x Hx. by apply elem_of_nil in Hx.
Qed.

(** The two arrays stay classified: what is in the first resolves, what is
    in the second does not. *)
Lemma loop_classified (fuel : nat) (q R U : list DefinedFunction) calls :
  loop fuel modules q R U = Some calls →
  (∀ x, x ∈ R → resolves modules x) →
  (∀ x, x ∈ U → ¬ resolves modules x) →
  (∀ x, x ∈ resolvedFunctions calls → resolves modules x)
  ∧ (∀ x, x ∈ unresolvedFunctions calls → ¬ resolves modules x).
Proof.
  revert q R U. induction fuel as [|fuel IH]; intros q R U; simpl; [done|].
  destruct q as [|x q]; [by intros [= <-]|].
  destruct (List.find _ modules) as [currentModule|] eqn:Hmod; [|apply IH].
  destruct (findDefinition modules currentModule x) as [currentFn|] eqn:Hdef.
  - intros Hrun HR HU. apply (IH _ _ _ Hrun); [|done].
    intros y [Hy| ->%list_elem_of_singleton]%elem_of_app; [by apply HR|].
    by exists currentModule, currentFn.
  - intros Hrun HR HU. apply (IH _ _ _ Hrun); [done|].
    intros y [Hy| ->%list_elem_of_singleton]%elem_of_app; [by apply HU|].
    intros (m & f & Hm & Hf). congruence.
Qed.

(** The log of pushes is defined whenever the loop ends. *)
Lemma enqueued_loop_defined (fuel : nat) (q R U : list DefinedFunction) calls :
  loop fuel modules q R U = Some calls →
  ∃ log, enqueued_loop fuel modules q R U = Some log.
Proof.
  revert q R U. induction fuel as [|fuel IH]; intros q R U; simpl; [done|].
  destruct q as [|x q]; [by eauto|].
  destruct (List.find _ modules) as [currentModule|]; [|apply IH].
  destruct (findDefinition modules currentModule x) as [currentFn|];
    [|apply IH].
  intros (log & ->)%IH. simpl. eauto.
Qed.

Lemma enqueued_loop_mono (fuel fuel' : nat) (q R U : list DefinedFunction) log :
  enqueued_loop fuel modules q R U = Some log → fuel ≤ fuel' →
  enqueued_loop fuel' modules q R U = Some log.
Proof.
  revert fuel' q R U log.
  induction fuel as [|fuel IH]; intros fuel' q R U log; simpl; [done|].
  intros Hrun Hle. destruct fuel' as [|fuel']; [lia|]. simpl.
  destruct q as [|x q]; [done|].
  destruct (List.find _ modules) as [currentModule|]; [|apply IH; [done|lia]].
  destruct (findDefinition modules currentModule x) as [currentFn|];
    [|apply IH; [done|lia]].
  destruct (enqueued_loop fuel _ _ _ _) as [log'|] eqn:E; [|done].
  rewrite (IH fuel' _ _ _ _ E); [done|lia].
Qed.

End Traversal.

(** C6 -- Unresolved-set disjointness.  For every list of modules and every
    entry point the traversal returns (with any bound on its iterations from
    some bound on), and no function is both in [resolvedFunctions] and in
    [unresolvedFunctions] of what it returns. *)
Theorem findAllCalledFunctions_disjoint (modules : list ParsedModule)
    (entryPoint : DefinedFunction) :
  ∃ n calls,
    (∀ fuel, n ≤ fuel →
       findAllCalledFunctions fuel modules entryPoint = Some calls)
    ∧ ∀ f, f ∈ resolvedFunctions calls → f ∈ unresolvedFunctions calls → False.
Proof.
  destruct (findAllCalledFunctions_total modules entryPoint)
    as (n & calls & Hrun).
  exists n, calls. split; [done|]. intros f Hres Hunres.
  destruct (loop_classified modules n [entryPoint] [] [] calls) as [HR HU].
  - by apply Hrun.
  - intros x Hx. by apply elem_of_nil in Hx.
  - intros x Hx. by apply elem_of_nil in Hx.
  - by apply (HU f Hunres), HR.
Qed.

(** C7, as amended -- Termination.  For every list of modules and every entry
    point the traversal ends: from some bound on, every bound on the number
    of iterations gives the same result and the same log of pushes onto the
    worklist. *)
Theorem findAllCalledFunctions_terminates (modules : list ParsedModule)
    (entryPoint : DefinedFunction) :
  ∃ n calls log, ∀ fuel, n ≤ fuel →
    findAllCalledFunctions fuel modules entryPoint = Some calls
    ∧ enqueued fuel modules entryPoint = Some log.
Proof.
  destruct (findAllCalledFunctions_total modules entryPoint)
    as (n & calls & Hrun).
  destruct (enqueued_loop_defined modules n [entryPoint] [] [] calls)
    as [log Hlog]; [by apply Hrun|].
  exists n, calls, (entryPoint :: log). intros fuel Hfuel.
  split; [by apply Hrun|]. unfold enqueued.
  by rewrite (enqueued_loop_mono modules n fuel _ _ _ log Hlog Hfuel).
Qed.

(** C7, as stated, fails on the module of a [main] that calls [ns.hack]
    twice: the traversal ends, and its log of pushes holds the same function
    four times (each call is recorded as a call and as a member access); no
    bound on the iterations gives a log without repetition. *)
Lemma enqueued_at_most_once_counterexample :
  enqueued 6 [Demo.module_hack_twice] defaultEntryPoint
  = Some [mkDefinedFunction "main" "" ""; mkDefinedFunction "hack" "ns" "";
          mkDefinedFunction "hack" "ns" ""; mkDefinedFunction "hack" "ns" "";
          mkDefinedFunction "hack" "ns" ""]
  ∧ ¬ ∃ fuel log,
        enqueued fuel [Demo.module_hack_twice] defaultEntryPoint = Some log
        ∧ NoDup log.
Proof.
  split; [by vm_compute|]. intros (fuel & log & Hrun & Hnd).
  unfold enqueued in Hrun.
  destruct (enqueued_loop fuel _ _ _ _) as [log'|] eqn:E; [|done].
  injection Hrun as <-.
  apply (enqueued_loop_mono _ _ (fuel `max` 6)) in E; [|lia].
  assert (enqueued_loop 6 [Demo.module_hack_twice] [defaultEntryPoint] [] []
          = Some (replicate 4 (mkDefinedFunction "hack" "ns" ""))) as E6
    by (by vm_compute).
  apply (enqueued_loop_mono _ _ (fuel `max` 6)) in E6; [|lia].
  rewrite E in E6. injection E6 as ->.
  apply NoDup_cons in Hnd as [_ Hnd]. apply NoDup_cons in Hnd as [Hnd _].
  apply Hnd. by left.
Qed.

(** ** The module parser *)

Lemma mapM_imported (named : list (string * string)) :
  mapM Acorn.imported (map (λ n, Acorn.ImportSpecifier n.1 n.2) named)
  = Some (map fst named).
Proof.
  apply mapM_Some. induction named as [|n named IH]; simpl; by constructor.
Qed.

(** C8 -- Import round-trip.  A default import [import X from "lib"] and a
    namespace import [import * as X from "lib"] are recorded with alias [X]
    and imports [["*"]], a named import [import {a, b} from "lib"] with alias
    [""] and the imported names in order (for any number of names); the file
    path recorded is the specifier string.  The three source texts of the
    specification parse to exactly these entries. *)
Theorem parseImport_shapes (filePath X lib : string)
    (first : string * string) (others : list (string * string)) :
  parseTree filePath
    (Acorn.Program
       [Acorn.ImportDeclaration [Acorn.ImportDefaultSpecifier X] lib])
  = Return (mkParsedModule filePath [mkImportedModule lib X ["*"]] [])
  ∧ parseTree filePath
      (Acorn.Program
         [Acorn.ImportDeclaration
            (map (λ n, Acorn.ImportSpecifier n.1 n.2) (first :: others)) lib])
    = Return (mkParsedModule filePath
                [mkImportedModule lib "" (map fst (first :: others))] [])
  ∧ parseTree filePath
      (Acorn.Program
         [Acorn.ImportDeclaration [Acorn.ImportNamespaceSpecifier X] lib])
    = Return (mkParsedModule filePath [mkImportedModule lib X ["*"]] [])
  ∧ Demo.parseScript "" Demo.src_import_default
    = Return (mkParsedModule "" [mkImportedModule "lib" "X" ["*"]] [])
  ∧ Demo.parseScript "" Demo.src_import_named
    = Return (mkParsedModule "" [mkImportedModule "lib" "" ["a"; "b"]] [])
  ∧ Demo.parseScript "" Demo.src_import_namespace
    = Return (mkParsedModule "" [mkImportedModule "lib" "X" ["*"]] []).
Proof.
  split; [done|]. split; [|split; [done|by vm_compute]].
  unfold parseTree. cbn [topLevelParsing]. unfold parseImport.
  change (head (map _ (first :: others)) ≫= Acorn.imported)
    with (Some first.1).
  cbn beta iota. rewrite mapM_imported. done.
Qed.

(** ** The link resolver and the top-level operation *)

Lemma mapM_Throw {A B} (f : A → Result B) (l : list A) error :
  mapM f l = Throw error → ∃ x, x ∈ l ∧ f x = Throw error.
Proof.
  induction l as [|x l IH]; [done|]. rewrite mapM_Result_cons.
  destruct (f x) as [y|e] eqn:Ef.
  - destruct (mapM f l) as [k|e]; [done|]. intros [= ->].
    destruct IH as (x' & ? & ?); [done|]. exists x'. split; [by right|done].
  - intros [= ->]. exists x. split; [by left|done].
Qed.

Lemma calculateRamCost_Throw {IPlayer : Type}
    (RamCosts : gmap string (RamCostValue IPlayer))
    (RamCostConstants : RamCostConstantsT) (player : IPlayer) functions error :
  calculateRamCost RamCosts RamCostConstants player functions = Throw error →
  error = TypeError.
Proof.
  unfold calculateRamCost, mbind, Result_bind.
  destruct (mapM _ _) as [es|e] eqn:Hes; [done|]. intros [= ->].
  apply mapM_Throw in Hes as (fn & _ & Hfn). unfold costEntry in Hfn.
  repeat case_match; congruence.
Qed.

Section Resolver.

Context {IPlayer : Type}.
Variable RamCosts : gmap string (RamCostValue IPlayer).
Variable RamCostConstants : RamCostConstantsT.
Variable errorCodeValue : RamCalculationErrorCode.t → Q.
Variable parse : string → option Acorn.Node.
Variable areImportsEquals : string → string → bool.
Variable dynamicImport : string → list string + string.

#[local] Abbreviation parseScript' := (parseScript parse).
#[local] Abbreviation parseAll_loop' :=
  (parseAll_loop parse areImportsEquals dynamicImport).
#[local] Abbreviation parseAll' :=
  (parseAll parse areImportsEquals dynamicImport).
#[local] Abbreviation calculateRamUsage_try' :=
  (calculateRamUsage_try RamCosts RamCostConstants parse areImportsEquals
     dynamicImport).
#[local] Abbreviation calculateRamUsage' :=
  (calculateRamUsage RamCosts RamCostConstants errorCodeValue parse
     areImportsEquals dynamicImport).

Lemma parseScript_filePath (filePath code : string) m :
  parseScript' filePath code = Return m → pm_filePath m = filePath.
Proof.
  unfold parseScript, parseTree. destruct (parse code); [|done].
  destruct (topLevelParsing _ _ _); [|done]. by intros [= <-].
Qed.

Lemma parseScript_Throw (filePath code : string) error :
  parseScript' filePath code = Throw error →
  error = AcornSyntaxError ∨ error = TypeError.
Proof.
  unfold parseScript, parseTree. destruct (parse code); [|intros [= <-]; by left].
  destruct (topLevelParsing _ _ _); [done|]. intros [= <-]. by right.
Qed.

Lemma parseAll_loop_Return (fuel : nat) (otherScripts : list Script)
    (modulesToParse : list string) (parsedModules result : list ParsedModule) :
  parseAll_loop' fuel otherScripts modulesToParse parsedModules
  = Some (Return result) →
  (∀ p, p ∈ modulesToParse →
     ∃ importer, importer ∈ parsedModules
                 ∧ p ∈ map im_filePath (importedModules importer)) →
  ∃ more, result = parsedModules ++ more
          ∧ (NoDup (map pm_filePath parsedModules) →
             NoDup (map pm_filePath result))
          ∧ Forall (answers parse result) more.
Proof.
  revert modulesToParse parsedModules.
  induction fuel as [|fuel IH]; intros modulesToParse parsedModules; [done|].
  simpl. destruct modulesToParse as [|pathToParse modulesToParse].
  { intros [= <-] _. exists []. rewrite app_nil_r. by repeat split. }
  destruct (Js.includes _ _) eqn:Hseen.
  { intros Hrun Hq. apply (IH _ _ Hrun). intros p Hp. apply Hq. by right. }
  intros Hrun Hq.
  assert (∃ code m,
            parseScript' (normalizedPath pathToParse) code = Return m
            ∧ parseAll_loop' fuel otherScripts
                (modulesToParse ++ map im_filePath (importedModules m))
                (parsedModules ++ [m]) = Some (Return result))
    as (code & m & Hparse & Hrun').
  { revert Hrun. destruct (_ || _).
    - destruct (resolveExternalModule dynamicImport pathToParse) as [code|e];
        simpl; [|done].
      destruct (parseScript parse _ code) as [m|e] eqn:Hp; [|done]. eauto.
    - destruct (List.find _ otherScripts) as [s|]; simpl; [|done].
      destruct (parseScript parse _ _) as [m|e] eqn:Hp; [|done]. eauto. }
  clear Hrun.
  destruct (IH _ _ Hrun') as (more & -> & Hnd & Hans).
  { intros p [Hp|Hp]%elem_of_app.
    - destruct (Hq p) as (importer & ? & ?); [by right|].
      exists importer. split; [|done]. apply elem_of_app. by left.
    - exists m. split; [|done].
      apply elem_of_app. right. by apply list_elem_of_singleton. }
  exists (m :: more). rewrite <- app_assoc. simpl.
  split; [done|]. split.
  - intros Hnd0. rewrite <- app_assoc in Hnd. apply Hnd.
    rewrite map_app. simpl. apply NoDup_app. split; [done|]. split.
    + intros x Hx ->%list_elem_of_singleton.
      rewrite (parseScript_filePath _ _ _ Hparse) in Hx.
      apply includes_spec in Hx. congruence.
    + apply NoDup_singleton.
  - rewrite <- app_assoc in Hans. simpl in Hans.
    constructor; [|done].
    destruct (Hq pathToParse) as (importer & Himp & Hpath); [by left|].
    exists pathToParse, code, importer.
    split; [apply elem_of_app; by left|]. split; [done|].
    split; [|done]. by apply parseScript_filePath in Hparse.
Qed.

Lemma parseAll_loop_Throw (fuel : nat) (otherScripts : list Script)
    (modulesToParse : list string) (parsedModules : list ParsedModule) error :
  parseAll_loop' fuel otherScripts modulesToParse parsedModules
  = Some (Throw error) →
  error = AcornSyntaxError ∨ error = TypeError
  ∨ (∃ message, error = RamCalculationException
                          RamCalculationErrorCode.ImportError message)
  ∨ (∃ message, error = RamCalculationException
                          RamCalculationErrorCode.URLImportError message).
Proof.
  revert modulesToParse parsedModules.
  induction fuel as [|fuel IH]; intros modulesToParse parsedModules; [done|].
  simpl. destruct modulesToParse as [|pathToParse modulesToParse]; [done|].
  destruct (Js.includes _ _); [apply IH|].
  destruct (_ || _).
  - unfold resolveExternalModule. destruct (dynamicImport pathToParse); simpl.
    + destruct (parseScript _ _ _) as [m|e] eqn:Hparse; [apply IH|].
      intros [= <-]. apply parseScript_Throw in Hparse. tauto.
    + intros [= <-]. right. right. right. eauto.
  - destruct (code <$> List.find _ otherScripts) as [code|]; simpl.
    + destruct (parseScript _ _ _) as [m|e] eqn:Hparse; [apply IH|].
      intros [= <-]. apply parseScript_Throw in Hparse. tauto.
    + intros [= <-]. right. right. left. eauto.
Qed.

(** C9 -- Each module is parsed at most once.  When [parseAll], on a builder
    just constructed, returns a list of modules, the list starts with the
    entry-point module, parsed under the file path [""]; every later module
    answers an import specifier of a module of the list and carries the
    specifier, stripped of one leading ["./"], as its file path; and the
    file paths of the list are pairwise distinct. *)
Theorem parseAll_parses_once (fuel : nat) (initialCode : string)
    (otherScripts : list Script) (modules : list ParsedModule) :
  parseAll' fuel new_InvocationTreeBuilder initialCode otherScripts
  = Some (Return modules) →
  ∃ entry others,
    modules = entry :: others
    ∧ parseScript' "" initialCode = Return entry
    ∧ pm_filePath entry = ""
    ∧ Forall (answers parse modules) others
    ∧ NoDup (map pm_filePath modules).
Proof.
  unfold parseAll, new_InvocationTreeBuilder.
  destruct (parseScript _ "" initialCode) as [entry|e] eqn:Hentry; [|done].
  intros Hrun. apply parseAll_loop_Return in Hrun as (others & -> & Hnd & Hans).
  - exists entry, others. split; [done|]. split; [done|].
    split; [by apply parseScript_filePath in Hentry|]. split; [done|].
    apply Hnd. simpl. apply NoDup_singleton.
  - intros p Hp. exists entry. split; [by apply list_elem_of_singleton|].
    unfold Lodash.uniq, Lodash.uniqWith in Hp.
    apply (baseUniq_elem_of _ String.eqb_eq) in Hp as [Hp|Hp]; [|done].
    by apply elem_of_nil in Hp.
Qed.

(** The array returned is the builder's own [#parsedModules]: what an
    earlier call on the same builder has left there comes first. *)
Lemma parseAll_extends_builder (fuel : nat) (this : list ParsedModule)
    (initialCode : string) (otherScripts : list Script)
    (modules : list ParsedModule) :
  parseAll' fuel this initialCode otherScripts = Some (Return modules) →
  ∃ entry others,
    modules = this ++ entry :: others
    ∧ parseScript' "" initialCode = Return entry.
Proof.
  unfold parseAll.
  destruct (parseScript _ "" initialCode) as [entry|e] eqn:Hentry; [|done].
  intros Hrun. apply parseAll_loop_Return in Hrun as (others & -> & _ & _).
  - exists entry, others. by rewrite <- app_assoc.
  - intros p Hp. exists entry.
    split; [apply elem_of_app; right; by apply list_elem_of_singleton|].
    unfold Lodash.uniq, Lodash.uniqWith in Hp.
    apply (baseUniq_elem_of _ String.eqb_eq) in Hp as [Hp|Hp]; [|done].
    by apply elem_of_nil in Hp.
Qed.

Lemma calculateRamUsage_try_Throw (fuel : nat) (player : IPlayer)
    (codeCopy : string) (otherScripts : list Script) error :
  calculateRamUsage_try' fuel player codeCopy otherScripts = Some (Throw error) →
  error = AcornSyntaxError ∨ error = TypeError
  ∨ (∃ message, error = RamCalculationException
                          RamCalculationErrorCode.ImportError message)
  ∨ (∃ message, error = RamCalculationException
                          RamCalculationErrorCode.URLImportError message).
Proof.
  unfold calculateRamUsage_try, parseAll.
  destruct (parseScript _ "" codeCopy) as [entry|e] eqn:Hentry.
  - destruct (parseAll_loop _ _ _ _ _ _ _) as [[parseResults|e]|] eqn:Hloop;
      [| |done].
    + destruct (findAllCalledFunctions _ _ _) as [calls|]; [|done]. simpl.
      intros [= ->%calculateRamCost_Throw]. tauto.
    + intros [= <-]. by apply parseAll_loop_Throw in Hloop.
  - intros [= <-]. apply parseScript_Throw in Hentry. tauto.
Qed.

(** C3, as amended -- The top-level operation lets no error escape: whatever
    the [try] block does, a [RamCalculation] is returned.  On a thrown error
    it is [{ cost: errorCode }] with no entries, where [errorCode] is the
    error's [code] field when the error has one and [SyntaxError] when it
    has none. *)
Theorem calculateRamUsage_catches (fuel : nat) (player : IPlayer)
    (codeCopy : string) (otherScripts : list Script)
    (outcome : Result RamCalculation) :
  calculateRamUsage_try' fuel player codeCopy otherScripts = Some outcome →
  ∃ calculation,
    calculateRamUsage' fuel player codeCopy otherScripts = Some calculation
    ∧ match outcome with
      | Return r => calculation = r
      | Throw error =>
          calculation
          = mkRamCalculation
              (Js.Number
                 (errorCodeValue
                    match Thrown_code error with
                    | Some code => code
                    | None => RamCalculationErrorCode.SyntaxError
                    end)) None
      end.
Proof.
  intros Htry. unfold calculateRamUsage. rewrite Htry. simpl.
  destruct outcome as [r|error]; [by exists r|].
  eexists. split; [done|]. unfold nullish. by destruct (Thrown_code error).
Qed.

(** C10 -- Error codes.  An error thrown in the [try] block without a [code]
    field -- the front end's [SyntaxError], a [TypeError] -- is reported as
    the [SyntaxError] code; a [RamCalculationException] is reported as the
    code it carries, and the codes so carried are [ImportError] and
    [URLImportError]. *)
Theorem calculateRamUsage_error_code (fuel : nat) (player : IPlayer)
    (codeCopy : string) (otherScripts : list Script) (error : Thrown) :
  calculateRamUsage_try' fuel player codeCopy otherScripts = Some (Throw error) →
  match error with
  | AcornSyntaxError | TypeError =>
      Thrown_code error = None
      ∧ calculateRamUsage' fuel player codeCopy otherScripts
        = Some (mkRamCalculation
                  (Js.Number
                     (errorCodeValue RamCalculationErrorCode.SyntaxError))
                  None)
  | RamCalculationException code message =>
      (code = RamCalculationErrorCode.ImportError
       ∨ code = RamCalculationErrorCode.URLImportError)
      ∧ calculateRamUsage' fuel player codeCopy otherScripts
        = Some (mkRamCalculation (Js.Number (errorCodeValue code)) None)
  end.
Proof.
  intros Htry. pose proof (calculateRamUsage_try_Throw _ _ _ _ _ Htry) as Hkind.
  unfold calculateRamUsage. rewrite Htry. simpl.
  destruct error as [| |code message]; [done|done|]. split; [|done].
  destruct Hkind as [?|[?|[[? [= -> _]]|[? [= -> _]]]]]; try done; tauto.
Qed.

End Resolver.

(** ** The link resolver and the top-level operation on the concrete host *)

Lemma parseAll_parses_once_witness :
  ∃ modules,
    Demo.parseAll 20 new_InvocationTreeBuilder Demo.src_cyclic_main
      Demo.cyclic_scripts = Some (Return modules)
    ∧ ∃ entry others,
        modules = entry :: others
        ∧ Demo.parseScript "" Demo.src_cyclic_main = Return entry
        ∧ pm_filePath entry = ""
        ∧ Forall (answers Demo.parse modules) others
        ∧ NoDup (map pm_filePath modules).
Proof.
  eexists. split; [vm_compute; reflexivity|].
  apply (parseAll_parses_once Demo.parse Demo.areImportsEquals
           Demo.dynamicImport 20 Demo.src_cyclic_main Demo.cyclic_scripts).
  vm_compute. reflexivity.
Defined.

Lemma calculateRamUsage_catches_witness :
  ∃ calculation,
    Demo.calculateRamUsage 10 0 Demo.src_args_includes [] = Some calculation
    ∧ calculation
      = mkRamCalculation
          (Js.Number (Demo.errorCodeValue RamCalculationErrorCode.SyntaxError))
          None.
Proof.
  apply (calculateRamUsage_catches Demo.RamCosts Demo.RamCostConstants
           Demo.errorCodeValue Demo.parse Demo.areImportsEquals
           Demo.dynamicImport 10 0 Demo.src_args_includes [] (Throw TypeError)).
  vm_compute. reflexivity.
Defined.

Lemma calculateRamUsage_error_code_witness :
  (RamCalculationErrorCode.ImportError = RamCalculationErrorCode.ImportError
   ∨ RamCalculationErrorCode.ImportError
     = RamCalculationErrorCode.URLImportError)
  ∧ Demo.calculateRamUsage 10 0 Demo.src_missing_import []
    = Some (mkRamCalculation
              (Js.Number
                 (Demo.errorCodeValue RamCalculationErrorCode.ImportError))
              None).
Proof.
  apply (calculateRamUsage_error_code Demo.RamCosts Demo.RamCostConstants
           Demo.errorCodeValue Demo.parse Demo.areImportsEquals
           Demo.dynamicImport 10 0 Demo.src_missing_import []
           (RamCalculationException RamCalculationErrorCode.ImportError
              "Imported module nowhere can't be found")).
  vm_compute. reflexivity.
Defined.

(** C3, as stated, fails on a source the front end rejects: the error thrown
    has no [code] field, so the cost returned, the [SyntaxError] code, is not
    read from the error. *)
Lemma thrown_error_without_code_counterexample :
  Demo.calculateRamUsage 10 0 Demo.src_unclosed []
  = Some (mkRamCalculation (Js.Number (-1)) None)
  ∧ ¬ ∀ error,
        Demo.calculateRamUsage_try 10 0 Demo.src_unclosed []
        = Some (Throw error) →
        ∃ errorCode,
          Thrown_code error = Some errorCode
          ∧ Demo.calculateRamUsage 10 0 Demo.src_unclosed []
            = Some (mkRamCalculation
                      (Js.Number (Demo.errorCodeValue errorCode)) None).
Proof.
  split; [by vm_compute|]. intros Hclaim.
  destruct (Hclaim AcornSyntaxError) as (errorCode & Hcode & _);
    [by vm_compute|]. discriminate Hcode.
Qed.

(** * Further properties of the code *)

(** ** The reachability traversal, as a set *)

Section TraversalResult.

Variable modules : list ParsedModule.
Variable entryPoint : DefinedFunction.

Lemma resolves_hasModule (x : DefinedFunction) :
  resolves modules x → hasModule modules x.
Proof. intros (m & f & Hm & _). unfold hasModule. by rewrite Hm. Qed.

(** Nothing is recorded or enqueued that the call graph does not reach. *)
Lemma loop_reaches (fuel : nat) (q R U : list DefinedFunction) calls :
  findAllCalledFunctions_loop fuel modules q R U = Some calls →
  (∀ x, x ∈ q ++ R ++ U → reaches modules entryPoint x) →
  ∀ x, x ∈ resolvedFunctions calls ++ unresolvedFunctions calls →
       reaches modules entryPoint x.
Proof.
  revert q R U. induction fuel as [|fuel IH]; intros q R U; simpl; [done|].
  destruct q as [|y q].
  { intros [= <-] Hall x Hx. by apply Hall. }
  destruct (List.find _ modules) as [currentModule|] eqn:Hmod.
  - destruct (findDefinition modules currentModule y) as [currentFn|] eqn:Hdef.
    + intros Hrun Hall. apply (IH _ _ _ Hrun). intros x.
      rewrite !elem_of_app, list_elem_of_singleton.
      intros [[Hx|Hx]|[[Hx| ->]|Hx]].
      * apply Hall. rewrite !elem_of_app, elem_of_cons. tauto.
      * apply list_elem_of_In, filter_In in Hx as [Hx _].
        apply list_elem_of_In in Hx.
        apply (reaches_call _ _ y currentModule currentFn); [|done..].
        apply Hall. by left.
      * apply Hall. rewrite !elem_of_app, elem_of_cons. tauto.
      * apply Hall. by left.
      * apply Hall. rewrite !elem_of_app, elem_of_cons. tauto.
    + intros Hrun Hall. apply (IH _ _ _ Hrun). intros x.
      rewrite !elem_of_app, list_elem_of_singleton.
      intros [Hx|[Hx|[Hx| ->]]].
      * apply Hall. rewrite !elem_of_app, elem_of_cons. tauto.
      * apply Hall. rewrite !elem_of_app, elem_of_cons. tauto.
      * apply Hall. rewrite !elem_of_app, elem_of_cons. tauto.
      * apply Hall. by left.
  - intros Hrun Hall. apply (IH _ _ _ Hrun). intros x Hx. apply Hall.
    revert Hx. rewrite !elem_of_app, elem_of_cons. tauto.
Qed.

(** What is recorded as unresolved has a module. *)
Lemma loop_unresolved_hasModule (fuel : nat) (q R U : list DefinedFunction)
    calls :
  findAllCalledFunctions_loop fuel modules q R U = Some calls →
  (∀ x, x ∈ U → hasModule modules x) →
  ∀ x, x ∈ unresolvedFunctions calls → hasModule modules x.
Proof.
  revert q R U. induction fuel as [|fuel IH]; intros q R U; simpl; [done|].
  destruct q as [|y q]; [by intros [= <-]|].
  destruct (List.find _ modules) as [currentModule|] eqn:Hmod; [|apply IH].
  destruct (findDefinition modules currentModule y) as [currentFn|];
    [apply IH|].
  intros Hrun HU. apply (IH _ _ _ Hrun).
  intros x [Hx| ->%list_elem_of_singleton]%elem_of_app; [by apply HU|].
  unfold hasModule. by rewrite Hmod.
Qed.

Lemma loop_closed (fuel : nat) (q R U : list DefinedFunction) calls :
  findAllCalledFunctions_loop fuel modules q R U = Some calls →
  owed modules q R U entryPoint →
  (∀ x currentModule currentFn d,
     x ∈ R →
     List.find (λ m, String.eqb (pm_filePath m) (filePath x)) modules
     = Some currentModule →
     findDefinition modules currentModule x = Some currentFn →
     d ∈ calledFunctions currentFn → owed modules q R U d) →
  owed modules [] (resolvedFunctions calls) (unresolvedFunctions calls) entryPoint
  ∧ ∀ x currentModule currentFn d,
      x ∈ resolvedFunctions calls →
      List.find (λ m, String.eqb (pm_filePath m) (filePath x)) modules
      = Some currentModule →
      findDefinition modules currentModule x = Some currentFn →
      d ∈ calledFunctions currentFn →
      owed modules [] (resolvedFunctions calls) (unresolvedFunctions calls) d.
Proof.
  revert q R U. induction fuel as [|fuel IH]; intros q R U; simpl; [done|].
  destruct q as [|y q]; [by intros [= <-]|].
  destruct (List.find _ modules) as [currentModule|] eqn:Hmod.
  - destruct (findDefinition modules currentModule y) as [currentFn|] eqn:Hdef.
    + intros Hrun Hentry Hdeps. apply (IH _ _ _ Hrun).
      * destruct Hentry as [Hentry|Hentry]; [left|by right].
        revert Hentry.
        rewrite !elem_of_app, elem_of_cons, list_elem_of_singleton. tauto.
      * intros x m f d [Hx| ->%list_elem_of_singleton]%elem_of_app Hm Hf Hd.
        -- destruct (Hdeps x m f d Hx Hm Hf Hd) as [Hin|Hno]; [left|by right].
           revert Hin.
           rewrite !elem_of_app, elem_of_cons, list_elem_of_singleton. tauto.
        -- assert (m = currentModule) as -> by congruence.
           assert (f = currentFn) as -> by congruence.
           left. destruct (isAlreadyProcessed R U d) eqn:Hproc.
           ++ apply isAlreadyProcessed_spec in Hproc. revert Hproc.
              rewrite !elem_of_app. tauto.
           ++ rewrite !elem_of_app. right. right. right.
              apply list_elem_of_In, filter_In. split.
              ** by apply list_elem_of_In.
              ** by rewrite Hproc.
    + intros Hrun Hentry Hdeps. apply (IH _ _ _ Hrun).
      * destruct Hentry as [Hentry|Hentry]; [left|by right].
        revert Hentry.
        rewrite !elem_of_app, elem_of_cons, list_elem_of_singleton. tauto.
      * intros x m f d Hx Hm Hf Hd.
        destruct (Hdeps x m f d Hx Hm Hf Hd) as [Hin|Hno]; [left|by right].
        revert Hin.
        rewrite !elem_of_app, elem_of_cons, list_elem_of_singleton. tauto.
  - assert (∀ d, owed modules (y :: q) R U d → owed modules q R U d) as Hdrop.
    { intros d [Hin|Hno]; [|by right].
      destruct (decide (d = y)) as [->|Hne].
      - right. unfold hasModule. rewrite Hmod. by intros [? ?].
      - left. revert Hin. rewrite !elem_of_app, elem_of_cons. tauto. }
    intros Hrun Hentry Hdeps. apply (IH _ _ _ Hrun); [by apply Hdrop|].
    intros x m f d Hx Hm Hf Hd. apply Hdrop. by apply (Hdeps x m f d).
Qed.

End TraversalResult.

(** X1 -- What the traversal returns, as sets.  [resolvedFunctions] holds
    exactly the functions that the call graph reaches from the entry point
    and that have a definition; [unresolvedFunctions] holds exactly the
    reached functions that have a module but no definition.  A reached
    function without a module is in neither. *)
Theorem findAllCalledFunctions_reachable (modules : list ParsedModule)
    (entryPoint : DefinedFunction) :
  ∃ n calls,
    (∀ fuel, n ≤ fuel →
       findAllCalledFunctions fuel modules entryPoint = Some calls)
    ∧ ∀ f,
        (f ∈ resolvedFunctions calls
         ↔ reaches modules entryPoint f ∧ resolves modules f)
        ∧ (f ∈ unresolvedFunctions calls
           ↔ reaches modules entryPoint f ∧ hasModule modules f
             ∧ ¬ resolves modules f).
Proof.
  destruct (findAllCalledFunctions_total modules entryPoint)
    as (n & calls & Hrun).
  exists n, calls. split; [done|].
  pose proof (Hrun n (Nat.le_refl n)) as Hn. unfold findAllCalledFunctions in Hn.
  destruct (loop_classified modules n _ _ _ _ Hn) as [HR HU];
    [intros x Hx; by apply elem_of_nil in Hx
    |intros x Hx; by apply elem_of_nil in Hx|].
  assert (∀ x, x ∈ resolvedFunctions calls ++ unresolvedFunctions calls →
               reaches modules entryPoint x) as Hreach.
  { apply (loop_reaches modules entryPoint n _ _ _ _ Hn). intros x.
    rewrite !elem_of_app, list_elem_of_singleton, !elem_of_nil.
    intros [->|[[]|[]]]. constructor. }
  assert (∀ x, x ∈ unresolvedFunctions calls → hasModule modules x) as Hmod.
  { apply (loop_unresolved_hasModule modules n _ _ _ _ Hn).
    intros x Hx. by apply elem_of_nil in Hx. }
  destruct (loop_closed modules entryPoint n _ _ _ _ Hn) as [Hentry Hdeps].
  { left. rewrite !elem_of_app, list_elem_of_singleton. tauto. }
  { intros x m f d Hx. by apply elem_of_nil in Hx. }
  assert (∀ f, reaches modules entryPoint f → hasModule modules f →
               f ∈ resolvedFunctions calls ++ unresolvedFunctions calls)
    as Hcomplete.
  { intros f Hf. induction Hf as [|x m fx d Hx IH Hm Hfx Hd]; intros Hhas.
    - destruct Hentry as [Hin|Hno]; [|done].
      revert Hin. rewrite !elem_of_app, elem_of_nil. tauto.
    - assert (x ∈ resolvedFunctions calls) as HxR.
      { assert (hasModule modules x) as Hhasx.
        { unfold hasModule. by rewrite Hm. }
        apply IH in Hhasx as [HxR|HxU]%elem_of_app; [done|].
        exfalso. apply (HU x HxU). by exists m, fx. }
      destruct (Hdeps x m fx d HxR Hm Hfx Hd) as [Hin|Hno]; [|done].
      revert Hin. rewrite !elem_of_app, elem_of_nil. tauto. }
  intros f. split; split.
  - intros Hf. split; [|by apply HR]. apply Hreach, elem_of_app. by left.
  - intros [Hf Hres].
    pose proof (Hcomplete f Hf (resolves_hasModule _ _ Hres)) as Hin.
    apply elem_of_app in Hin as [?|HfU]; [done|]. by destruct (HU f HfU).
  - intros Hf. split; [|split; [by apply Hmod|by apply HU]].
    apply Hreach, elem_of_app. by right.
  - intros (Hf & Hhas & Hres).
    pose proof (Hcomplete f Hf Hhas) as Hin.
    apply elem_of_app in Hin as [HfR|?]; [|done].
    by destruct (Hres (HR f HfR)).
Qed.

(** X2 -- The entry point's own edge cases.  When no module carries the
    entry point's file path the entry point is dropped and both arrays are
    empty; when its module has neither a declaration of it nor an import that
    provides it, it is the one unresolved function. *)
Theorem findAllCalledFunctions_entry_edges (modules : list ParsedModule)
    (entryPoint : DefinedFunction) (fuel : nat) :
  (¬ hasModule modules entryPoint →
   findAllCalledFunctions (2 + fuel) modules entryPoint
   = Some (mkFunctionCalls [] []))
  ∧ (hasModule modules entryPoint → ¬ resolves modules entryPoint →
     findAllCalledFunctions (2 + fuel) modules entryPoint
     = Some (mkFunctionCalls [] [entryPoint])).
Proof.
  unfold hasModule, resolves, findAllCalledFunctions. simpl. split.
  - intros Hno. destruct (List.find _ modules); [|done].
    destruct Hno. by eexists.
  - intros [m Hm] Hres. rewrite Hm.
    destruct (findDefinition modules m entryPoint) as [f|] eqn:Hf; [|done].
    destruct Hres. by exists m, f.
Qed.

(** ** The cost reducer: special names, errors, floor, receivers *)

Lemma mapM_Throw_first {A B} (f : A → Result B) (l : list A) x error :
  x ∈ l → f x = Throw error → ∃ error', mapM f l = Throw error'.
Proof.
  induction l as [|y l IH]; intros Hx Hfx; [by apply elem_of_nil in Hx|].
  rewrite mapM_Result_cons. destruct (f y) as [b|e] eqn:Hfy; [|by eauto].
  apply elem_of_cons in Hx as [->|Hx]; [congruence|].
  destruct (IH Hx Hfx) as [e ->]. eauto.
Qed.

Section CostReducerFurther.

Context {IPlayer : Type}.
Variable RamCosts : gmap string (RamCostValue IPlayer).
Variable RamCostConstants : RamCostConstantsT.

#[local] Abbreviation costEntry'' := (costEntry RamCosts RamCostConstants).
#[local] Abbreviation calculateRamCost'' :=
  (calculateRamCost RamCosts RamCostConstants).
#[local] Abbreviation specials :=
  (map entry_name (specialKeyChecks RamCostConstants)).

Lemma specialKeyChecks_hit (sk : RamUsageEntry) :
  sk ∈ specialKeyChecks RamCostConstants →
  List.find (λ sk', String.eqb (entry_name sk) (entry_name sk'))
    (specialKeyChecks RamCostConstants) = Some sk.
Proof.
  intros Hsk. apply list_elem_of_In in Hsk. simpl in Hsk.
  destruct Hsk as [<-|[<-|[<-|[<-|[]]]]]; reflexivity.
Qed.

Lemma costEntry_special (player : IPlayer) (fn : DefinedFunction) sk :
  sk ∈ specialKeyChecks RamCostConstants → namespace fn = entry_name sk →
  costEntry'' player fn = Return sk.
Proof.
  intros Hsk Hns. unfold costEntry. rewrite Hns.
  by rewrite specialKeyChecks_hit.
Qed.

(** X3 -- Special names are charged per function.  A function whose
    namespace is one of the four special names gets that name's fixed entry
    whatever its own name and whatever the cost table holds; two different
    functions under the same special name are both charged, so the fixed
    cost is added twice. *)
Theorem calculateRamCost_special_twice (player : IPlayer)
    (f1 f2 : DefinedFunction) (sk : RamUsageEntry) :
  sk ∈ specialKeyChecks RamCostConstants →
  namespace f1 = entry_name sk → namespace f2 = entry_name sk → f1 ≠ f2 →
  costEntry'' player f1 = Return sk
  ∧ calculateRamCost'' player [f1; f2]
    = Return (mkRamCalculation
                (Js.plus
                   (Js.plus (Js.Number (ScriptBaseRamCost RamCostConstants))
                      (entry_cost sk))
                   (entry_cost sk))
                (Some [sk; sk])).
Proof.
  intros Hsk Hf1 Hf2 Hne. split; [by apply costEntry_special|].
  apply calculateRamCost_Return. exists [sk; sk]. split.
  - unfold Lodash.uniqWith.
    rewrite (baseUniq_fresh _ isEqual_spec).
    + simpl app. rewrite !mapM_Result_cons.
      by rewrite !(costEntry_special player _ sk).
    + simpl. apply NoDup_cons. split; [|apply NoDup_singleton].
      by intros ->%list_elem_of_singleton.
  - f_equal. apply list_elem_of_In in Hsk. simpl in Hsk.
    destruct Hsk as [<-|[<-|[<-|[<-|[]]]]]; reflexivity.
Qed.

Lemma costEntry_Throw_iff (player : IPlayer) (fn : DefinedFunction) error :
  costEntry'' player fn = Throw error ↔
  error = TypeError
  ∧ (namespace fn ∉ specials)
  ∧ 1 < length (Js.split_dot (namespace fn))
  ∧ RamCosts !! List.last (Js.split_dot (namespace fn)) "" = None.
Proof.
  unfold costEntry. split.
  - destruct (List.find _ _) as [sk|] eqn:Hfind; [done|].
    assert (namespace fn ∉ specials) as Hns.
    { intros (sk & Hname & Hsk)%list_elem_of_fmap.
      apply list_elem_of_In in Hsk.
      pose proof (find_none _ _ Hfind sk Hsk) as Hno. simpl in Hno.
      rewrite Hname, String.eqb_refl in Hno. done. }
    case_decide; [|done].
    destruct (RamCosts !! _) as [[l|t]|] eqn:Hlib; try done.
    by intros [= <-].
  - intros (-> & Hns & Hlen & Hlib).
    rewrite specialKeyChecks_miss by done.
    rewrite decide_True by done. by rewrite Hlib.
Qed.



Lemma costEntry_plain (player : IPlayer) (fn : DefinedFunction) :
  plainNamespace RamCostConstants (namespace fn) →
  costEntry'' player fn
  = Return (mkRamUsageEntry type_ns (name fn)
              match RamCosts !! name fn with
              | Some (CostLeaf l) => actualCost player l
              | Some (CostSubApi _) => Js.Object
              | None => Js.Undefined
              end).
Proof.
  intros [Hns Hlen]. unfold costEntry.
  rewrite specialKeyChecks_miss by done. by rewrite decide_False by lia.
Qed.

Lemma baseUniq_map_inj {A} (c : A → A → bool) (g : A → A)
    (array seen : list A) :
  (∀ x y, c x y = true ↔ x = y) →
  (∀ x y, x ∈ seen ++ array → y ∈ seen ++ array → g x = g y → x = y) →
  Lodash.baseUniq c (map g array) (map g seen)
  = map g (Lodash.baseUniq c array seen).
Proof.
  intros Hc. revert seen.
  induction array as [|v array IH]; intros seen Hinj; simpl; [done|].
  assert (existsb (c (g v)) (map g seen) = existsb (c v) seen) as ->.
  { apply eq_true_iff_eq. rewrite !(existsb_comparator c Hc). split.
    - intros (y & Hy & Hin)%list_elem_of_fmap.
      assert (v = y) as ->; [|done]. apply Hinj; [| |done].
      + rewrite elem_of_app. right. by left.
      + rewrite elem_of_app. by left.
    - apply list_elem_of_fmap_2. }
  destruct (existsb (c v) seen).
  - apply IH. intros x y Hx Hy. apply Hinj.
    + revert Hx. rewrite !elem_of_app, elem_of_cons. tauto.
    + revert Hy. rewrite !elem_of_app, elem_of_cons. tauto.
  - rewrite <- IH.
    + by rewrite map_app.
    + intros x y Hx Hy. apply Hinj.
      * revert Hx. rewrite !elem_of_app, !elem_of_cons, elem_of_nil. tauto.
      * revert Hy. rewrite !elem_of_app, !elem_of_cons, elem_of_nil. tauto.
Qed.

(** X6 -- The receiver's name does not matter.  Writing another plain
    identifier for the receiver of the calls ([X.hack] for [ns.hack]), one
    that is not used as a receiver already, changes neither the entries nor
    the cost: under a plain namespace the cost is looked up by the function
    name alone. *)
Theorem calculateRamCost_receiver_renamed (player : IPlayer)
    (functions : list DefinedFunction) (old new : string) :
  plainNamespace RamCostConstants old →
  plainNamespace RamCostConstants new →
  (∀ fn, fn ∈ functions → namespace fn ≠ new) →
  calculateRamCost'' player (map (withNamespace old new) functions)
  = calculateRamCost'' player functions.
Proof.
  intros Hold Hnew Hfresh. unfold calculateRamCost, Lodash.uniqWith.
  change [] with (map (withNamespace old new) []) at 1.
  rewrite (baseUniq_map_inj _ _ _ _ isEqual_spec).
  - assert (mapM (costEntry'' player)
              (map (withNamespace old new) (Lodash.baseUniq isEqual functions []))
            = mapM (costEntry'' player) (Lodash.baseUniq isEqual functions []))
      as ->; [|done].
    induction (Lodash.baseUniq isEqual functions []) as [|fn l IH]; [done|].
    simpl map. rewrite !mapM_Result_cons, IH.
    assert (costEntry'' player (withNamespace old new fn)
            = costEntry'' player fn) as ->; [|done].
    unfold withNamespace. destruct (String.eqb_spec (namespace fn) old) as [Hns|];
      [|done].
    rewrite !costEntry_plain; [done|by rewrite Hns|done].
  - simpl. intros x y Hx Hy. unfold withNamespace.
    pose proof (Hfresh x Hx) as Hxn. pose proof (Hfresh y Hy) as Hyn.
    destruct (String.eqb_spec (namespace x) old) as [Hxo|Hxo],
             (String.eqb_spec (namespace y) old) as [Hyo|Hyo].
    + destruct x, y. simpl in *. intros [= -> ->]. congruence.
    + intros <-. simpl in Hyn. done.
    + intros ->. simpl in Hxn. done.
    + done.
Qed.

End CostReducerFurther.

(** ** The module parser: what a walk records *)

Section NodeInduction.

Import Acorn.

Variable P : Node → Prop.

Hypothesis P_Identifier : ∀ name, P (Identifier name).
Hypothesis P_Literal : ∀ raw, P (Literal raw).
Hypothesis P_ThisExpression : P ThisExpression.
Hypothesis P_MemberExpression :
  ∀ object property, P object → P (MemberExpression object property).
Hypothesis P_CallExpression :
  ∀ callee arguments, P callee → Forall P arguments →
    P (CallExpression callee arguments).
Hypothesis P_NewExpression :
  ∀ callee arguments, P callee → Forall P arguments →
    P (NewExpression callee arguments).
Hypothesis P_AwaitExpression :
  ∀ argument, P argument → P (AwaitExpression argument).
Hypothesis P_ArrayExpression :
  ∀ elements, Forall P elements → P (ArrayExpression elements).
Hypothesis P_FunctionExpression :
  ∀ params body, Forall P params → P body → P (FunctionExpression params body).
Hypothesis P_ExpressionStatement :
  ∀ expression, P expression → P (ExpressionStatement expression).
Hypothesis P_ReturnStatement :
  ∀ argument, (∀ n, argument = Some n → P n) → P (ReturnStatement argument).
Hypothesis P_VariableDeclaration :
  ∀ declarations, Forall P declarations → P (VariableDeclaration declarations).
Hypothesis P_VariableDeclarator :
  ∀ id init, P id → (∀ n, init = Some n → P n) → P (VariableDeclarator id init).
Hypothesis P_BlockStatement :
  ∀ body, Forall P body → P (BlockStatement body).
Hypothesis P_FunctionDeclaration :
  ∀ id params body, Forall P params → P body →
    P (FunctionDeclaration id params body).
Hypothesis P_ClassDeclaration :
  ∀ id body, P body → P (ClassDeclaration id body).
Hypothesis P_ClassBody : ∀ body, Forall P body → P (ClassBody body).
Hypothesis P_MethodDefinition :
  ∀ key value, P value → P (MethodDefinition key value).
Hypothesis P_PropertyDefinition :
  ∀ key value, (∀ n, value = Some n → P n) → P (PropertyDefinition key value).
Hypothesis P_ImportDeclaration :
  ∀ specifiers source, P (ImportDeclaration specifiers source).
Hypothesis P_ExportNamedDeclaration :
  ∀ declaration, (∀ n, declaration = Some n → P n) →
    P (ExportNamedDeclaration declaration).
Hypothesis P_ExportDefaultDeclaration :
  ∀ declaration, P declaration → P (ExportDefaultDeclaration declaration).
Hypothesis P_Program : ∀ body, Forall P body → P (Program body).

(** Induction over a tree, with the hypothesis on every element of a child
    list and on a child that is present. *)
Lemma Node_nested_ind : ∀ node, P node.
Proof.
  fix IH 1. intros node.
  destruct node as
    [ | | |object property|callee arguments|callee arguments|argument
    |elements|params body|expression|argument|declarations|id init|body
    |id params body|id body|body|key value|key value|specifiers source
    |declaration|declaration|body ].
  all: match goal with
       | |- P (Identifier _) => apply P_Identifier
       | |- P (Literal _) => apply P_Literal
       | |- P ThisExpression => apply P_ThisExpression
       | |- P (MemberExpression _ _) => apply P_MemberExpression
       | |- P (CallExpression _ _) => apply P_CallExpression
       | |- P (NewExpression _ _) => apply P_NewExpression
       | |- P (AwaitExpression _) => apply P_AwaitExpression
       | |- P (ArrayExpression _) => apply P_ArrayExpression
       | |- P (FunctionExpression _ _) => apply P_FunctionExpression
       | |- P (ExpressionStatement _) => apply P_ExpressionStatement
       | |- P (ReturnStatement _) => apply P_ReturnStatement
       | |- P (VariableDeclaration _) => apply P_VariableDeclaration
       | |- P (VariableDeclarator _ _) => apply P_VariableDeclarator
       | |- P (BlockStatement _) => apply P_BlockStatement
       | |- P (FunctionDeclaration _ _ _) => apply P_FunctionDeclaration
       | |- P (ClassDeclaration _ _) => apply P_ClassDeclaration
       | |- P (ClassBody _) => apply P_ClassBody
       | |- P (MethodDefinition _ _) => apply P_MethodDefinition
       | |- P (PropertyDefinition _ _) => apply P_PropertyDefinition
       | |- P (ImportDeclaration _ _) => apply P_ImportDeclaration
       | |- P (ExportNamedDeclaration _) => apply P_ExportNamedDeclaration
       | |- P (ExportDefaultDeclaration _) => apply P_ExportDefaultDeclaration
       | |- P (Program _) => apply P_Program
       end.
  all: try apply IH.
  all: match goal with
       | |- Forall P ?l =>
           induction l as [|n l IHl]; constructor; [apply IH|exact IHl]
       | |- ∀ n, ?o = Some n → P n =>
           destruct o as [n0|]; intros n Hn; [|discriminate Hn];
           injection Hn as <-; apply IH
       end.
Qed.

End NodeInduction.

Lemma appendCalls_nil (state : WithinFunctionParseState) :
  appendCalls state [] = state.
Proof. destruct state. unfold appendCalls. simpl. by rewrite app_nil_r. Qed.

Lemma appendCalls_app (state : WithinFunctionParseState) p1 p2 :
  appendCalls (appendCalls state p1) p2 = appendCalls state (p1 ++ p2).
Proof. unfold appendCalls. simpl. by rewrite map_app, app_assoc. Qed.

Lemma uniform_ext f g : (∀ state, f state = g state) → Uniform g → Uniform f.
Proof. intros Hfg [r Hr]. exists r. intros state. by rewrite Hfg. Qed.

Lemma uniform_ret : Uniform Some.
Proof. exists (Some []). intros state. simpl. by rewrite appendCalls_nil. Qed.

Lemma uniform_throw : Uniform (λ _, None).
Proof. by exists None. Qed.

Lemma uniform_record (fnName fnNamespace : string) :
  Uniform (λ state, Some (recordFunctionCall fnName fnNamespace state)).
Proof. by exists (Some [(fnName, fnNamespace)]). Qed.

Lemma uniform_seq f g : Uniform f → Uniform g → Uniform (λ state, f state ≫= g).
Proof.
  intros [[p1|] Hf] [[p2|] Hg].
  - exists (Some (p1 ++ p2)). intros state. rewrite Hf. simpl.
    by rewrite Hg, <- appendCalls_app.
  - exists None. intros state. rewrite Hf. simpl. by rewrite Hg.
  - exists None. intros state. by rewrite Hf.
  - exists None. intros state. by rewrite Hf.
Qed.

Lemma uniform_option (f : Acorn.Node → _) (o : option Acorn.Node) :
  (∀ n, o = Some n → Uniform (f n)) →
  Uniform (λ state, match o with Some n => f n state | None => Some state end).
Proof.
  destruct o as [n|]; intros Hn; [|apply uniform_ret].
  apply (uniform_ext _ (f n)); [done|]. by apply Hn.
Qed.

Lemma uniform_each (nodes : list Acorn.Node) :
  Forall (λ n, Uniform (withinBlockParsing n)) nodes →
  Uniform (withinBlockParsing (Acorn.BlockStatement nodes)).
Proof.
  induction 1 as [|n nodes Hn _ IH].
  - apply (uniform_ext _ Some); [done|]. apply uniform_ret.
  - apply (uniform_ext _
             (λ state, withinBlockParsing n state
                       ≫= withinBlockParsing (Acorn.BlockStatement nodes)));
      [done|]. by apply uniform_seq.
Qed.

(** The walk inside a function is uniform at every tree. *)
Lemma within_uniform (node : Acorn.Node) : Uniform (withinBlockParsing node).
Proof.
  induction node using Node_nested_ind.
  - apply (uniform_ext _ Some); [done|]. apply uniform_ret.
  - apply (uniform_ext _ Some); [done|]. apply uniform_ret.
  - apply (uniform_ext _ Some); [done|]. apply uniform_ret.
  - apply (uniform_ext _ (λ state, Some (recordFunctionCall property
                                           (nullish (Acorn.name node) "") state)));
      [done|]. apply uniform_record.
  - destruct (calleeName node) as [[fnName fnNamespace]|] eqn:Hname.
    + apply (uniform_ext _
               (λ state, Some (recordFunctionCall fnName fnNamespace state)
                         ≫= withinBlockParsing node)).
      * intros state. simpl. by rewrite Hname.
      * apply uniform_seq; [apply uniform_record|done].
    + apply (uniform_ext _ (λ _, None)); [|apply uniform_throw].
      intros state. simpl. by rewrite Hname.
  - destruct (calleeName node) as [[fnName fnNamespace]|] eqn:Hname.
    + apply (uniform_ext _
               (λ state, Some (recordFunctionCall fnName fnNamespace state)
                         ≫= withinBlockParsing node)).
      * intros state. simpl. by rewrite Hname.
      * apply uniform_seq; [apply uniform_record|done].
    + apply (uniform_ext _ (λ _, None)); [|apply uniform_throw].
      intros state. simpl. by rewrite Hname.
  - by apply (uniform_ext _ (withinBlockParsing node)).
  - apply (uniform_ext _ (withinBlockParsing (Acorn.BlockStatement elements)));
      [done|]. by apply uniform_each.
  - apply (uniform_ext _
             (λ state, withinBlockParsing (Acorn.BlockStatement params) state
                       ≫= withinBlockParsing node)); [done|].
    apply uniform_seq; [by apply uniform_each|done].
  - by apply (uniform_ext _ (withinBlockParsing node)).
  - apply (uniform_ext _ (λ state, match argument with
                                   | Some n => withinBlockParsing n state
                                   | None => Some state
                                   end)); [done|]. by apply uniform_option.
  - apply (uniform_ext _
             (withinBlockParsing (Acorn.BlockStatement declarations)));
      [done|]. by apply uniform_each.
  - apply (uniform_ext _
             (λ state, withinBlockParsing node state
                       ≫= λ state', match init with
                                    | Some n => withinBlockParsing n state'
                                    | None => Some state'
                                    end)); [done|].
    apply uniform_seq; [done|]. by apply uniform_option.
  - by apply uniform_each.
  - apply (uniform_ext _
             (λ state, withinBlockParsing (Acorn.BlockStatement params) state
                       ≫= withinBlockParsing node)); [done|].
    apply uniform_seq; [by apply uniform_each|done].
  - by apply (uniform_ext _ (withinBlockParsing node)).
  - apply (uniform_ext _ (withinBlockParsing (Acorn.BlockStatement body)));
      [done|]. by apply uniform_each.
  - by apply (uniform_ext _ (withinBlockParsing node)).
  - apply (uniform_ext _ (λ state, match value with
                                   | Some n => withinBlockParsing n state
                                   | None => Some state
                                   end)); [done|]. by apply uniform_option.
  - apply (uniform_ext _ Some); [done|]. apply uniform_ret.
  - apply (uniform_ext _ (λ state, match declaration with
                                   | Some n => withinBlockParsing n state
                                   | None => Some state
                                   end)); [done|]. by apply uniform_option.
  - by apply (uniform_ext _ (withinBlockParsing node)).
  - apply (uniform_ext _ (withinBlockParsing (Acorn.BlockStatement body)));
      [done|]. by apply uniform_each.
Qed.

(** X7 -- The walk inside a function only appends.  It keeps the function
    and the file path of its state and appends calls to the state's call
    list, all labelled with the state's file path; from any other state the
    same tree appends the same calls, labelled with that state's file path.
    Whether the walk throws does not depend on the state either. *)
Theorem withinBlockParsing_appends (node : Acorn.Node)
    (state other : WithinFunctionParseState) :
  match withinBlockParsing node state with
  | Some state' =>
      currentFunction state' = currentFunction state
      ∧ wf_filePath state' = wf_filePath state
      ∧ ∃ new,
          currentCalledFunctions state' = currentCalledFunctions state ++ new
          ∧ Forall (λ d, filePath d = wf_filePath state) new
          ∧ withinBlockParsing node other
            = Some (mkWithinFunctionParseState (currentFunction other)
                      (currentCalledFunctions other
                         ++ map (relabel (wf_filePath other)) new)
                      (wf_filePath other))
  | None => withinBlockParsing node other = None
  end.
Proof.
  destruct (within_uniform node) as [[pairs|] Hr]; rewrite !Hr; simpl; [|done].
  split; [done|]. split; [done|]. eexists. split; [done|]. split.
  - apply Forall_forall. by intros d (p & -> & _)%list_elem_of_fmap.
  - unfold appendCalls. by rewrite <- list_fmap_compose.
Qed.

(** ** The module parser: what the top-level walk makes of a tree *)

Lemma extendTop_nil filePath (state : TopLevelParseState) :
  extendTop filePath state ([], []) = state.
Proof. destruct state. unfold extendTop. simpl. by rewrite !app_nil_r. Qed.

Lemma extendTop_app filePath (state : TopLevelParseState) d1 d2 :
  extendTop filePath (extendTop filePath state d1) d2
  = extendTop filePath state (d1.1 ++ d2.1, d1.2 ++ d2.2).
Proof. unfold extendTop. simpl. by rewrite map_app, !app_assoc. Qed.

Lemma uniformTop_ext f g :
  (∀ filePath state, f filePath state = g filePath state) →
  UniformTop g → UniformTop f.
Proof. intros Hfg [r Hr]. exists r. intros fp state. by rewrite Hfg. Qed.

Lemma uniformTop_ret : UniformTop (λ _, Some).
Proof.
  exists (Some ([], [])). intros fp state. simpl. by rewrite extendTop_nil.
Qed.

Lemma uniformTop_seq f g :
  UniformTop f → UniformTop g →
  UniformTop (λ filePath state, f filePath state ≫= g filePath).
Proof.
  intros [[d1|] Hf] [[d2|] Hg].
  - exists (Some (d1.1 ++ d2.1, d1.2 ++ d2.2)). intros fp state.
    rewrite Hf. simpl. by rewrite Hg, <- extendTop_app.
  - exists None. intros fp state. rewrite Hf. simpl. by rewrite Hg.
  - exists None. intros fp state. by rewrite Hf.
  - exists None. intros fp state. by rewrite Hf.
Qed.

Lemma uniformTop_option (f : Acorn.Node → _) (o : option Acorn.Node) :
  (∀ n, o = Some n → UniformTop (f n)) →
  UniformTop (λ filePath state,
                match o with Some n => f n filePath state | None => Some state end).
Proof.
  destruct o as [n|]; intros Hn; [|apply uniformTop_ret].
  apply (uniformTop_ext _ (f n)); [done|]. by apply Hn.
Qed.

Lemma uniformTop_each (nodes : list Acorn.Node) :
  Forall (λ n, UniformTop (λ filePath, topLevelParsing filePath n)) nodes →
  UniformTop (λ filePath, topLevelParsing filePath (Acorn.BlockStatement nodes)).
Proof.
  induction 1 as [|n nodes Hn _ IH].
  - apply (uniformTop_ext _ (λ _, Some)); [done|]. apply uniformTop_ret.
  - apply (uniformTop_ext _
             (λ filePath state,
                topLevelParsing filePath n state
                ≫= topLevelParsing filePath (Acorn.BlockStatement nodes)));
      [done|]. by apply (uniformTop_seq _ _ Hn IH).
Qed.

Lemma uniformTop_import specifiers source :
  UniformTop (λ _, parseImport specifiers source).
Proof.
  unfold parseImport.
  destruct (head specifiers ≫= Acorn.imported).
  - destruct (mapM Acorn.imported specifiers) as [imports|].
    + exists (Some ([mkImportedModule source "" imports], [])).
      intros fp state. simpl. unfold recordImport, extendTop. simpl.
      by rewrite app_nil_r.
    + by exists None.
  - exists (Some ([mkImportedModule source
                     (nullish (Acorn.local <$> head specifiers) "") ["*"]],
                  [])).
    intros fp state. simpl. unfold recordImport, extendTop. simpl.
    by rewrite app_nil_r.
Qed.

Lemma uniformTop_declaration (id : option string) (body : Acorn.Node) :
  UniformTop
    (λ filePath state,
       fnName ← id;
       fnState ← withinBlockParsing body
                   (newWithinFunctionParseState fnName "" filePath);
       Some (recordFunction (endFunction fnState) state)).
Proof.
  destruct id as [fnName|]; [|by exists None].
  destruct (within_uniform body) as [[pairs|] Hr].
  - exists (Some ([], [(fnName, pairs)])). intros fp state. simpl.
    rewrite Hr. simpl. unfold recordFunction, extendTop. simpl.
    by rewrite app_nil_r.
  - exists None. intros fp state. simpl. by rewrite Hr.
Qed.

(** The top-level walk is uniform at every tree. *)
Lemma top_uniform (node : Acorn.Node) :
  UniformTop (λ filePath, topLevelParsing filePath node).
Proof.
  induction node using Node_nested_ind.
  - apply (uniformTop_ext _ (λ _, Some)); [done|]. apply uniformTop_ret.
  - apply (uniformTop_ext _ (λ _, Some)); [done|]. apply uniformTop_ret.
  - apply (uniformTop_ext _ (λ _, Some)); [done|]. apply uniformTop_ret.
  - by apply (uniformTop_ext _ (λ filePath, topLevelParsing filePath node)).
  - apply (uniformTop_ext _
             (λ filePath state,
                topLevelParsing filePath node state
                ≫= topLevelParsing filePath (Acorn.BlockStatement arguments)));
      [done|]. apply (uniformTop_seq _ _ IHnode). by apply uniformTop_each.
  - apply (uniformTop_ext _
             (λ filePath state,
                topLevelParsing filePath node state
                ≫= topLevelParsing filePath (Acorn.BlockStatement arguments)));
      [done|]. apply (uniformTop_seq _ _ IHnode). by apply uniformTop_each.
  - by apply (uniformTop_ext _ (λ filePath, topLevelParsing filePath node)).
  - by apply (uniformTop_ext _
                (λ filePath, topLevelParsing filePath
                               (Acorn.BlockStatement elements)));
      [|apply uniformTop_each].
  - apply (uniformTop_ext _
             (λ filePath state,
                topLevelParsing filePath (Acorn.BlockStatement params) state
                ≫= topLevelParsing filePath node)); [done|].
    apply uniformTop_seq; [by apply uniformTop_each|done].
  - by apply (uniformTop_ext _ (λ filePath, topLevelParsing filePath node)).
  - apply (uniformTop_ext _
             (λ filePath state, match argument with
                                | Some n => topLevelParsing filePath n state
                                | None => Some state
                                end)); [done|].
    by apply (uniformTop_option (λ n filePath, topLevelParsing filePath n)).
  - by apply (uniformTop_ext _
                (λ filePath, topLevelParsing filePath
                               (Acorn.BlockStatement declarations)));
      [|apply uniformTop_each].
  - apply (uniformTop_ext _
             (λ filePath state,
                topLevelParsing filePath node state
                ≫= λ state', match init with
                             | Some n => topLevelParsing filePath n state'
                             | None => Some state'
                             end)); [done|].
    apply (uniformTop_seq _ _ IHnode).
    by apply (uniformTop_option (λ n filePath, topLevelParsing filePath n)).
  - by apply uniformTop_each.
  - apply (uniformTop_ext _ _ (λ _ _, eq_refl) (uniformTop_declaration id node)).
  - apply (uniformTop_ext _ _ (λ _ _, eq_refl) (uniformTop_declaration id node)).
  - by apply (uniformTop_ext _
                (λ filePath, topLevelParsing filePath
                               (Acorn.BlockStatement body)));
      [|apply uniformTop_each].
  - by apply (uniformTop_ext _ (λ filePath, topLevelParsing filePath node)).
  - apply (uniformTop_ext _
             (λ filePath state, match value with
                                | Some n => topLevelParsing filePath n state
                                | None => Some state
                                end)); [done|].
    by apply (uniformTop_option (λ n filePath, topLevelParsing filePath n)).
  - apply (uniformTop_ext _ (λ _, parseImport specifiers source)); [done|].
    apply uniformTop_import.
  - apply (uniformTop_ext _
             (λ filePath state, match declaration with
                                | Some n => topLevelParsing filePath n state
                                | None => Some state
                                end)); [done|].
    by apply (uniformTop_option (λ n filePath, topLevelParsing filePath n)).
  - by apply (uniformTop_ext _ (λ filePath, topLevelParsing filePath node)).
  - by apply (uniformTop_ext _
                (λ filePath, topLevelParsing filePath
                               (Acorn.BlockStatement body)));
      [|apply uniformTop_each].
Qed.

(** What [parseTree] returns, by the uniform outcome of the walk. *)
Lemma parseTree_uniform (ast : Acorn.Node) :
  ∃ r : option (list ImportedModule * list (string * list (string * string))),
    ∀ filePath,
      parseTree filePath ast
      = match r with
        | Some delta =>
            Return (mkParsedModule filePath delta.1
                      (map (λ nf, mkFunctionTreeNode
                                    (mkDefinedFunction nf.1 "" filePath)
                                    (map (λ p, mkDefinedFunction p.1 p.2
                                                 filePath) nf.2))
                         delta.2))
        | None => Throw TypeError
        end.
Proof.
  destruct (top_uniform ast) as [r Hr]. exists r. intros filePath.
  unfold parseTree. rewrite Hr. by destruct r.
Qed.

(** X8 -- Labelling invariant of a parsed module.  The module carries the
    file path it was parsed under; every function of its tree has an empty
    namespace and that file path, and so has every called function recorded
    for it: a call is labelled by where the caller lives. *)
Theorem parseScript_labels (parse : string → option Acorn.Node)
    (path code : string) (m : ParsedModule) :
  parseScript parse path code = Return m →
  pm_filePath m = path
  ∧ Forall (λ ft, namespace (fn ft) = ""
                  ∧ filePath (fn ft) = path
                  ∧ Forall (λ d, filePath d = path) (calledFunctions ft))
      (functionTree m).
Proof.
  unfold parseScript. destruct (parse code) as [ast|]; [|done].
  destruct (parseTree_uniform ast) as [[delta|] Hr]; rewrite Hr; [|done].
  intros [= <-]. split; [done|]. simpl. apply Forall_forall.
  intros ft (nf & -> & _)%list_elem_of_fmap. simpl.
  split; [done|]. split; [done|]. apply Forall_forall.
  by intros d (p & -> & _)%list_elem_of_fmap.
Qed.

(** X9 -- The file path is only a label.  Parsing the same source under
    another file path throws in the same cases and otherwise gives the same
    module with every file path replaced: the same imports, and the same
    functions with the same calls. *)
Theorem parseScript_relabel (parse : string → option Acorn.Node)
    (path path' code : string) :
  parseScript parse path' code
  = match parseScript parse path code with
    | Return m => Return (relabelModule path' m)
    | Throw error => Throw error
    end.
Proof.
  unfold parseScript. destruct (parse code) as [ast|]; [|done].
  destruct (parseTree_uniform ast) as [[delta|] Hr]; rewrite !Hr; [|done].
  unfold relabelModule. simpl. f_equal. f_equal.
  rewrite <- list_fmap_compose. apply list_fmap_ext. intros _ nf _.
  unfold relabelNode, relabel. simpl. f_equal.
  rewrite <- list_fmap_compose. by apply list_fmap_ext.
Qed.

Lemma calleeName_None (callee : Acorn.Node) :
  calleeName callee = None ↔
  (∀ object property, callee ≠ Acorn.MemberExpression object property)
  ∧ (∀ name, callee = Acorn.Identifier name → name = "").
Proof.
  split.
  - intros Hnone. split.
    + intros object property ->. unfold calleeName in Hnone.
      destruct object; simpl in Hnone; try done.
      destruct (truthy _); simpl in Hnone; done.
    + intros name ->. unfold calleeName in Hnone. simpl in Hnone.
      by destruct name.
  - intros [Hmember Hname]. destruct callee; try done.
    + rewrite (Hname name0 eq_refl). done.
    + by destruct (Hmember callee property).
Qed.

Lemma within_each_fails (before after : list Acorn.Node) (n : Acorn.Node) :
  (∀ state, withinBlockParsing n state = None) →
  ∀ state,
    withinBlockParsing (Acorn.BlockStatement (before ++ n :: after)) state
    = None.
Proof.
  intros Hn. induction before as [|b before IH]; intros state.
  - change (withinBlockParsing n state
            ≫= withinBlockParsing (Acorn.BlockStatement after) = None).
    by rewrite Hn.
  - change (withinBlockParsing b state
            ≫= withinBlockParsing
                 (Acorn.BlockStatement (before ++ n :: after)) = None).
    destruct (withinBlockParsing b state); [apply IH|done].
Qed.

Lemma top_each_fails (path : string) (before after : list Acorn.Node)
    (n : Acorn.Node) :
  (∀ state, topLevelParsing path n state = None) →
  ∀ state,
    topLevelParsing path (Acorn.Program (before ++ n :: after)) state = None.
Proof.
  intros Hn. induction before as [|b before IH]; intros state.
  - change (topLevelParsing path n state
            ≫= topLevelParsing path (Acorn.Program after) = None).
    by rewrite Hn.
  - change (topLevelParsing path b state
            ≫= topLevelParsing path (Acorn.Program (before ++ n :: after))
            = None).
    destruct (topLevelParsing path b state); [apply IH|done].
Qed.

Section UnnamedCallee.

Context {IPlayer : Type}.
Variable RamCosts : gmap string (RamCostValue IPlayer).
Variable RamCostConstants : RamCostConstantsT.
Variable errorCodeValue : RamCalculationErrorCode.t → Q.
Variable parse : string → option Acorn.Node.
Variable areImportsEquals : string → string → bool.
Variable dynamicImport : string → list string + string.

(** X10 -- A call without a readable name.  A call statement whose callee is
    neither a member access nor a named identifier (an immediately invoked
    function, the call of a call's result), anywhere in the body of a
    declared function of the entry script, makes the walk throw a
    [TypeError]; the top-level operation reports it as the [SyntaxError]
    code, whatever the other scripts and the bound on iterations. *)
Theorem call_without_name_throws (fuel : nat) (player : IPlayer)
    (codeCopy : string) (otherScripts : list Script)
    (top_before top_after params before after arguments : list Acorn.Node)
    (id : option string) (callee : Acorn.Node) :
  (∀ object property, callee ≠ Acorn.MemberExpression object property) →
  (∀ name, callee = Acorn.Identifier name → name = "") →
  parse codeCopy
  = Some (Acorn.Program
            (top_before
               ++ Acorn.FunctionDeclaration id params
                    (Acorn.BlockStatement
                       (before
                          ++ Acorn.ExpressionStatement
                               (Acorn.CallExpression callee arguments)
                          :: after))
               :: top_after)) →
  parseScript parse "" codeCopy = Throw TypeError
  ∧ calculateRamUsage RamCosts RamCostConstants errorCodeValue parse
      areImportsEquals dynamicImport fuel player codeCopy otherScripts
    = Some (mkRamCalculation
              (Js.Number (errorCodeValue RamCalculationErrorCode.SyntaxError))
              None).
Proof.
  intros Hmember Hname Hparse.
  assert (calleeName callee = None) as Hcallee by by apply calleeName_None.
  assert (parseScript parse "" codeCopy = Throw TypeError) as Hthrow.
  { unfold parseScript, parseTree. rewrite Hparse.
    rewrite top_each_fails; [done|]. intros state. simpl.
    destruct id as [fnName|]; [|done]. simpl.
    change ((withinBlockParsing
               (Acorn.BlockStatement
                  (before
                     ++ Acorn.ExpressionStatement
                          (Acorn.CallExpression callee arguments) :: after))
               (newWithinFunctionParseState fnName "" "")
             ≫= λ fnState, Some (recordFunction (endFunction fnState) state))
            = None).
    rewrite within_each_fails; [done|]. intros st. simpl. by rewrite Hcallee. }
  split; [done|].
  unfold calculateRamUsage, calculateRamUsage_try, parseAll.
  by rewrite Hthrow.
Qed.

End UnnamedCallee.

(** ** The link resolver: answered imports, errors, termination *)

Lemma baseUniq_prefix {A} (c : A → A → bool) (array seen : list A) :
  ∃ ext, Lodash.baseUniq c array seen = seen ++ ext.
Proof.
  revert seen. induction array as [|v array IH]; intros seen; simpl.
  - exists []. by rewrite app_nil_r.
  - destruct (existsb (c v) seen); [apply IH|].
    destruct (IH (seen ++ [v])) as [ext ->]. exists (v :: ext).
    by rewrite <- app_assoc.
Qed.

Lemma uniq_elem_of (l : list string) (x : string) :
  x ∈ Lodash.uniq l ↔ x ∈ l.
Proof.
  unfold Lodash.uniq, Lodash.uniqWith.
  rewrite (baseUniq_elem_of _ String.eqb_eq), elem_of_nil. tauto.
Qed.

Section ResolverFurther.

Variable parse : string → option Acorn.Node.
Variable areImportsEquals : string → string → bool.
Variable dynamicImport : string → list string + string.

#[local] Abbreviation parseAll_loop'' :=
  (parseAll_loop parse areImportsEquals dynamicImport).
#[local] Abbreviation parseAll'' :=
  (parseAll parse areImportsEquals dynamicImport).

(** One iteration of the loop of [parseAll] on a non-empty worklist, by
    cases. *)
Lemma parseAll_loop_step (fuel : nat) (otherScripts : list Script)
    (pathToParse : string) (modulesToParse : list string)
    (parsedModules : list ParsedModule) :
  parseAll_loop'' (S fuel) otherScripts (pathToParse :: modulesToParse)
    parsedModules
  = if Js.includes (map pm_filePath parsedModules) (normalizedPath pathToParse)
    then parseAll_loop'' fuel otherScripts modulesToParse parsedModules
    else
      match (if isUrl pathToParse
             then code ← resolveExternalModule dynamicImport pathToParse;
                  Return (Some code)
             else Return (code <$> List.find
                            (λ s, areImportsEquals (filename s)
                                    (normalizedPath pathToParse))
                            otherScripts))
      with
      | Throw error => Some (Throw error)
      | Return None =>
          Some (Throw (RamCalculationException
                         RamCalculationErrorCode.ImportError
                         ("Imported module " +:+ normalizedPath pathToParse
                            +:+ " can't be found")))
      | Return (Some code) =>
          match parseScript parse (normalizedPath pathToParse) code with
          | Throw error => Some (Throw error)
          | Return result =>
              parseAll_loop'' fuel otherScripts
                (modulesToParse ++ specifiersOf result)
                (parsedModules ++ [result])
          end
      end.
Proof. reflexivity. Qed.

(** Every specifier of a parsed module is still on the worklist or already
    answered by a parsed module. *)
Lemma parseAll_loop_answered (fuel : nat) (otherScripts : list Script)
    (modulesToParse : list string) (parsedModules result : list ParsedModule) :
  parseAll_loop'' fuel otherScripts modulesToParse parsedModules
  = Some (Return result) →
  (∀ m p, m ∈ parsedModules → p ∈ specifiersOf m →
          p ∈ modulesToParse
          ∨ normalizedPath p ∈ map pm_filePath parsedModules) →
  ∀ m p, m ∈ result → p ∈ specifiersOf m →
         normalizedPath p ∈ map pm_filePath result.
Proof.
  revert modulesToParse parsedModules.
  induction fuel as [|fuel IH]; intros modulesToParse parsedModules; [done|].
  destruct modulesToParse as [|pathToParse modulesToParse].
  { simpl. intros [= <-] Hinv m p Hm Hp.
    destruct (Hinv m p Hm Hp) as [Hin|?]; [|done]. by apply elem_of_nil in Hin. }
  rewrite parseAll_loop_step.
  destruct (Js.includes _ _) eqn:Hseen.
  { intros Hrun Hinv. apply (IH _ _ Hrun). intros m p Hm Hp.
    destruct (Hinv m p Hm Hp) as [[->|Hin]%elem_of_cons|?];
      [right; by apply includes_spec|by left|by right]. }
  destruct (if isUrl pathToParse then _ else _) as [[code|]|e]; [|done|done].
  destruct (parseScript parse _ code) as [m'|e] eqn:Hparse; [|done].
  intros Hrun Hinv. apply (IH _ _ Hrun). intros m p.
  rewrite map_app, !elem_of_app, list_elem_of_singleton. simpl.
  rewrite list_elem_of_singleton.
  intros [Hm| ->] Hp; [|by left; right].
  destruct (Hinv m p Hm Hp) as [[->|Hin]%elem_of_cons|?].
  - right. right. symmetry. by eapply parseScript_filePath.
  - left. by left.
  - right. by left.
Qed.

(** X11 -- No dangling import in a result.  When [parseAll], on a builder
    just constructed, returns a list of modules, every import specifier of
    every module of the list is answered by a module of the list, whose file
    path is the specifier stripped of one leading ["./"]. *)
Theorem parseAll_answers_every_import (fuel : nat) (initialCode : string)
    (otherScripts : list Script) (modules : list ParsedModule)
    (m : ParsedModule) (p : string) :
  parseAll'' fuel new_InvocationTreeBuilder initialCode otherScripts
  = Some (Return modules) →
  m ∈ modules → p ∈ specifiersOf m →
  ∃ answer, answer ∈ modules ∧ pm_filePath answer = normalizedPath p.
Proof.
  unfold parseAll, new_InvocationTreeBuilder.
  destruct (parseScript parse "" initialCode) as [entry|e]; [|done].
  intros Hrun Hm Hp.
  assert (normalizedPath p ∈ map pm_filePath modules) as Hin.
  { apply (parseAll_loop_answered _ _ _ _ _ Hrun) with m; [|done..].
    intros m0 p0 ->%list_elem_of_singleton Hp0. left. by apply uniq_elem_of. }
  apply list_elem_of_fmap in Hin as (answer & ? & ?). by exists answer.
Qed.

End ResolverFurther.


Lemma uncoveredBy_mono univ cover cover' :
  (∀ x, x ∈ cover → x ∈ cover') →
  uncoveredBy univ cover' ≤ uncoveredBy univ cover.
Proof.
  intros Hsub. unfold uncoveredBy.
  induction univ as [|u univ IH]; simpl; [done|].
  destruct (decide (u ∈ cover)) as [Hu|Hu].
  - rewrite (bool_decide_eq_true_2 _ Hu), (bool_decide_eq_true_2 _ (Hsub _ Hu)).
    done.
  - rewrite (bool_decide_eq_false_2 _ Hu). simpl.
    destruct (bool_decide (u ∈ cover')); simpl; lia.
Qed.

Lemma uncoveredBy_strict univ cover cover' x :
  (∀ x, x ∈ cover → x ∈ cover') → x ∈ univ → x ∉ cover → x ∈ cover' →
  uncoveredBy univ cover' < uncoveredBy univ cover.
Proof.
  intros Hsub Hx HxA HxA'. unfold uncoveredBy.
  induction Hx as [x univ | x u univ Hx IH]; simpl.
  - rewrite (bool_decide_eq_false_2 _ HxA), (bool_decide_eq_true_2 _ HxA').
    simpl. pose proof (uncoveredBy_mono univ cover cover' Hsub) as Hle.
    unfold uncoveredBy in Hle. lia.
  - destruct (decide (u ∈ cover)) as [Hu|Hu].
    + rewrite (bool_decide_eq_true_2 _ Hu),
        (bool_decide_eq_true_2 _ (Hsub _ Hu)). simpl. by apply IH.
    + specialize (IH HxA HxA'). rewrite (bool_decide_eq_false_2 _ Hu). simpl.
      destruct (bool_decide (u ∈ cover')); simpl; lia.
Qed.

(** A leading ["./"] is stripped once only. *)
Lemma normalizedPath_startsWith (p : string) :
  Js.startsWith (normalizedPath p) "./" = Js.startsWith p "././".
Proof.
  unfold normalizedPath, Js.startsWith.
  destruct p as [|a [|b p]]; cbn [String.prefix Js.slice]; try done.
  - destruct (ascii_dec "." a) eqn:Ea; cbn [String.prefix]; by rewrite ?Ea.
  - destruct (ascii_dec "." a) eqn:Ea; destruct (ascii_dec "/" b) eqn:Eb;
      try (destruct p); cbn [String.prefix]; by rewrite ?Ea, ?Eb.
Qed.

Section ResolverOutcome.

Variable parse : string → option Acorn.Node.
Variable areImportsEquals : string → string → bool.
Variable dynamicImport : string → list string + string.

#[local] Abbreviation parseAll_loop3 :=
  (parseAll_loop parse areImportsEquals dynamicImport).
#[local] Abbreviation parseAll3 :=
  (parseAll parse areImportsEquals dynamicImport).

(** The import specifiers found in a source text do not depend on the file
    path it is parsed under. *)
Lemma parseScript_specifiers (filePath code : string) (m : ParsedModule) :
  parseScript parse filePath code = Return m →
  specifiersOf m = specifiersIn parse code.
Proof.
  unfold specifiersIn. rewrite (parseScript_relabel parse "" filePath code).
  destruct (parseScript parse "" code) as [m0|e]; [|done].
  by intros [= <-].
Qed.

Lemma parseAll_loop_exception (fuel : nat) (otherScripts : list Script)
    (modulesToParse : list string) (parsedModules : list ParsedModule)
    (errorCode : RamCalculationErrorCode.t) (message : string) :
  parseAll_loop3 fuel otherScripts modulesToParse parsedModules
  = Some (Throw (RamCalculationException errorCode message)) →
  (errorCode = RamCalculationErrorCode.ImportError
   ∧ ∃ pathToParse,
       isUrl pathToParse = false
       ∧ List.find (λ s, areImportsEquals (filename s)
                           (normalizedPath pathToParse)) otherScripts = None
       ∧ message = "Imported module " +:+ normalizedPath pathToParse
                     +:+ " can't be found")
  ∨ (errorCode = RamCalculationErrorCode.URLImportError
     ∧ ∃ pathToParse e,
         isUrl pathToParse = true
         ∧ dynamicImport pathToParse = inr e
         ∧ message = "Error dynamically importing module from "
                       +:+ pathToParse +:+ " for RAM calculations: " +:+ e).
Proof.
  revert modulesToParse parsedModules.
  induction fuel as [|fuel IH]; intros modulesToParse parsedModules; [done|].
  destruct modulesToParse as [|pathToParse modulesToParse]; [done|].
  rewrite parseAll_loop_step.
  destruct (Js.includes _ _); [apply IH|].
  destruct (isUrl pathToParse) eqn:Hurl.
  - unfold resolveExternalModule.
    destruct (dynamicImport pathToParse) as [functions|e] eqn:Himport; simpl.
    + destruct (parseScript _ _ _) as [m|e] eqn:Hparse; [apply IH|].
      intros [= ->]. by apply parseScript_Throw in Hparse as [?|?].
    + intros [= <- <-]. right. split; [done|]. by exists pathToParse, e.
  - destruct (List.find _ otherScripts) as [s|] eqn:Hfind; simpl.
    + destruct (parseScript _ _ _) as [m|e] eqn:Hparse; [apply IH|].
      intros [= ->]. by apply parseScript_Throw in Hparse as [?|?].
    + intros [= <- <-]. left. split; [done|]. by exists pathToParse.
Qed.

(** X12 -- Where an import error comes from.  A [RamCalculationException]
    out of [parseAll] is either an [ImportError] for a specifier that is no
    URL and that no script of the file set answers, its message naming the
    specifier stripped of one leading ["./"]; or a [URLImportError] for a URL
    whose dynamic import failed, its message naming the URL as written and
    the failure.  A URL never gives an [ImportError], a missing script never
    a [URLImportError]. *)
Theorem parseAll_exception (fuel : nat) (this : list ParsedModule)
    (initialCode : string) (otherScripts : list Script)
    (errorCode : RamCalculationErrorCode.t) (message : string) :
  parseAll3 fuel this initialCode otherScripts
  = Some (Throw (RamCalculationException errorCode message)) →
  (errorCode = RamCalculationErrorCode.ImportError
   ∧ ∃ pathToParse,
       isUrl pathToParse = false
       ∧ List.find (λ s, areImportsEquals (filename s)
                           (normalizedPath pathToParse)) otherScripts = None
       ∧ message = "Imported module " +:+ normalizedPath pathToParse
                     +:+ " can't be found")
  ∨ (errorCode = RamCalculationErrorCode.URLImportError
     ∧ ∃ pathToParse e,
         isUrl pathToParse = true
         ∧ dynamicImport pathToParse = inr e
         ∧ message = "Error dynamically importing module from "
                       +:+ pathToParse +:+ " for RAM calculations: " +:+ e).
Proof.
  unfold parseAll.
  destruct (parseScript parse "" initialCode) as [entry|e] eqn:Hentry.
  - apply parseAll_loop_exception.
  - intros [= ->]. by apply parseScript_Throw in Hentry as [?|?].
Qed.

(** The loop of [parseAll] ends when every specifier it can meet is a file
    name: each iteration shortens the worklist or parses a path not parsed
    before, and only the normalised specifiers can be such paths. *)
Lemma parseAll_loop_total (otherScripts : list Script) (univ : list string) :
  (∀ p, p ∈ univ → isUrl p = false) →
  (∀ s, s ∈ otherScripts → ∀ p, p ∈ specifiersIn parse (code s) → p ∈ univ) →
  ∀ k modulesToParse parsedModules,
    uncoveredBy (map normalizedPath univ) (map pm_filePath parsedModules) ≤ k →
    (∀ p, p ∈ modulesToParse → p ∈ univ) →
    ∃ n outcome, ∀ fuel, n ≤ fuel →
      parseAll_loop3 fuel otherScripts modulesToParse parsedModules
      = Some outcome.
Proof.
  intros Hfile Hclosed k.
  induction k as [k IHk] using lt_wf_ind.
  intros modulesToParse.
  induction modulesToParse as [|pathToParse modulesToParse IHq];
    intros parsedModules Hk Hsub.
  { exists 1, (Return parsedModules). intros [|fuel] ?; [lia|done]. }
  destruct (Js.includes (map pm_filePath parsedModules)
              (normalizedPath pathToParse)) eqn:Hseen.
  { destruct (IHq parsedModules Hk) as (n & outcome & Hn).
    { intros p Hp. apply Hsub. by right. }
    exists (S n), outcome. intros [|fuel] ?; [lia|].
    rewrite parseAll_loop_step, Hseen. apply Hn. lia. }
  assert (isUrl pathToParse = false) as Hurl by (apply Hfile, Hsub; by left).
  destruct (List.find (λ s, areImportsEquals (filename s)
                              (normalizedPath pathToParse)) otherScripts)
    as [s|] eqn:Hfind.
  2:{ eexists 1, _. intros [|fuel] ?; [lia|].
      rewrite parseAll_loop_step, Hseen, Hurl, Hfind. done. }
  destruct (parseScript parse (normalizedPath pathToParse) (code s))
    as [m|e] eqn:Hparse.
  2:{ eexists 1, _. intros [|fuel] ?; [lia|].
      rewrite parseAll_loop_step, Hseen, Hurl, Hfind. simpl.
      by rewrite Hparse. }
  assert (uncoveredBy (map normalizedPath univ)
            (map pm_filePath (parsedModules ++ [m]))
          < uncoveredBy (map normalizedPath univ)
              (map pm_filePath parsedModules)) as Hless.
  { apply uncoveredBy_strict with (normalizedPath pathToParse).
    - intros x Hx. rewrite map_app. apply elem_of_app. by left.
    - apply list_elem_of_fmap. exists pathToParse.
      split; [done|]. apply Hsub. by left.
    - intros Hin. apply includes_spec in Hin. congruence.
    - rewrite map_app. apply elem_of_app. right. simpl.
      apply list_elem_of_singleton. symmetry.
      by eapply parseScript_filePath. }
  destruct (IHk _ (Nat.lt_le_trans _ _ _ Hless Hk)
              (modulesToParse ++ specifiersOf m) (parsedModules ++ [m]))
    as (n & outcome & Hn); [done| |].
  { intros p [Hp|Hp]%elem_of_app; [apply Hsub; by right|].
    apply find_some in Hfind as [Hs _]. apply list_elem_of_In in Hs.
    apply (Hclosed s Hs). by rewrite <- (parseScript_specifiers _ _ _ Hparse). }
  exists (S n), outcome. intros [|fuel] ?; [lia|].
  rewrite parseAll_loop_step, Hseen, Hurl, Hfind. simpl. rewrite Hparse.
  apply Hn. lia.
Qed.

(** X13 -- The resolver ends on in-memory imports.  When no import specifier
    written in the entry point or in a script of the file set is a URL,
    [parseAll] finishes, with a list of modules or with an error, however
    the scripts import each other. *)
Theorem parseAll_terminates (this : list ParsedModule) (initialCode : string)
    (otherScripts : list Script) :
  (∀ p, p ∈ allSpecifiers parse initialCode otherScripts → isUrl p = false) →
  ∃ n outcome, ∀ fuel, n ≤ fuel →
    parseAll3 fuel this initialCode otherScripts = Some outcome.
Proof.
  intros Hfile. unfold parseAll.
  destruct (parseScript parse "" initialCode) as [entry|e] eqn:Hentry;
    [|exists 0, (Throw e); by intros].
  eapply (parseAll_loop_total otherScripts
            (allSpecifiers parse initialCode otherScripts) Hfile).
  - intros s Hs p Hp. unfold allSpecifiers. apply elem_of_app. right.
    apply list_elem_of_bind. by exists s.
  - done.
  - intros p Hp. apply (proj1 (uniq_elem_of _ _)) in Hp.
    unfold allSpecifiers. apply elem_of_app. left.
    unfold specifiersIn. rewrite Hentry. exact Hp.
Qed.

(** X14 -- An import written with a leading ["./"] is never followed.  The
    resolver files a module under its specifier stripped of one leading
    ["./"], while [findAllCalledFunctions] looks the module up under the
    specifier as written.  So, on the modules [parseAll] returns (no
    specifier beginning with ["././"]), a function that its module does not
    define and whose import reference is written with a leading ["./"] is
    not resolved, whatever the imported script defines. *)
Theorem dot_slash_import_not_resolved (fuel : nat) (initialCode : string)
    (otherScripts : list Script) (modules : list ParsedModule)
    (current : DefinedFunction) (currentModule : ParsedModule)
    (importReference : ImportedModule) :
  parseAll3 fuel new_InvocationTreeBuilder initialCode otherScripts
  = Some (Return modules) →
  (∀ m p, m ∈ modules → p ∈ specifiersOf m → Js.startsWith p "././" = false) →
  List.find (λ m, String.eqb (pm_filePath m) (filePath current)) modules
  = Some currentModule →
  List.find (λ ft, isEqual (fn ft) current) (functionTree currentModule)
  = None →
  List.find
    (λ m, String.eqb (alias m) (namespace current)
          && (Js.includes (imports m) (name current)
              || Js.includes (imports m) "*"))
    (importedModules currentModule) = Some importReference →
  Js.startsWith (im_filePath importReference) "./" = true →
  ¬ resolves modules current.
Proof.
  intros Hrun Hplain Hmodule Hlocal Hreference Hdot
    (currentModule' & currentFn & Hmodule' & Hdefinition).
  rewrite Hmodule in Hmodule'. injection Hmodule' as <-.
  unfold findDefinition in Hdefinition.
  rewrite Hlocal, Hreference in Hdefinition. simpl in Hdefinition.
  destruct (List.find (λ m, String.eqb (pm_filePath m)
                              (im_filePath importReference)) modules)
    as [importModule|] eqn:Himported; [|done].
  apply find_some in Himported as [Hin Hpath].
  apply String.eqb_eq in Hpath. apply list_elem_of_In in Hin.
  rewrite <- Hpath in Hdot. clear Hdefinition Hpath.
  unfold parseAll, new_InvocationTreeBuilder in Hrun.
  destruct (parseScript parse "" initialCode) as [entry|e] eqn:Hentry; [|done].
  pose proof Hrun as Hrun'.
  apply parseAll_loop_Return in Hrun' as (others & -> & _ & Hanswers).
  2:{ intros p Hp. apply (proj1 (uniq_elem_of _ _)) in Hp. exists entry.
      split; [by apply list_elem_of_singleton|done]. }
  simpl in Hin. apply elem_of_cons in Hin as [->|Hin].
  - by rewrite (parseScript_filePath _ _ _ _ Hentry) in Hdot.
  - rewrite Forall_forall in Hanswers.
    destruct (Hanswers importModule Hin)
      as (pathToParse & code & importer & Himporter & Hspecifier & Hfile & _).
    rewrite Hfile, normalizedPath_startsWith in Hdot.
    by rewrite (Hplain importer pathToParse Himporter Hspecifier) in Hdot.
Qed.

End ResolverOutcome.


(** ** The top-level operation as a whole *)

Section TopLevel.

Context {IPlayer : Type}.
Variable RamCosts : gmap string (RamCostValue IPlayer).
Variable RamCostConstants : RamCostConstantsT.
Variable errorCodeValue : RamCalculationErrorCode.t → Q.
Variable parse : string → option Acorn.Node.
Variable areImportsEquals : string → string → bool.
Variable dynamicImport : string → list string + string.

#[local] Abbreviation calculateRamUsage_try4 :=
  (calculateRamUsage_try RamCosts RamCostConstants parse areImportsEquals
     dynamicImport).
#[local] Abbreviation calculateRamUsage4 :=
  (calculateRamUsage RamCosts RamCostConstants errorCodeValue parse
     areImportsEquals dynamicImport).

(** X15 -- The top-level operation returns.  When no import specifier
    written in the script or in the file set is a URL, [calculateRamUsage]
    finishes with a [RamCalculation]: the import loop and the traversal both
    end.  The calculation has no [entries] exactly when an error was caught;
    a calculation that went through has them, even when the list is empty. *)
Theorem calculateRamUsage_returns (player : IPlayer) (codeCopy : string)
    (otherScripts : list Script) :
  (∀ p, p ∈ allSpecifiers parse codeCopy otherScripts → isUrl p = false) →
  ∃ n calculation, ∀ fuel, n ≤ fuel →
    calculateRamUsage4 fuel player codeCopy otherScripts = Some calculation
    ∧ (entries calculation = None
       ↔ ∃ error, calculateRamUsage_try4 fuel player codeCopy otherScripts
                  = Some (Throw error)).
Proof.
  intros Hfile.
  destruct (parseAll_terminates parse areImportsEquals dynamicImport
              new_InvocationTreeBuilder codeCopy otherScripts Hfile)
    as (n1 & [modules|error] & Hparse).
  - destruct (findAllCalledFunctions_total modules defaultEntryPoint)
      as (n2 & calls & Hcalls).
    destruct (calculateRamCost RamCosts RamCostConstants player
                (unresolvedFunctions calls)) as [r|error] eqn:Hcost.
    + exists (n1 `max` n2), r. intros fuel Hfuel.
      unfold calculateRamUsage, calculateRamUsage_try.
      rewrite Hparse, Hcalls by lia. simpl. rewrite Hcost.
      split; [done|]. apply calculateRamCost_Return in Hcost as (es & _ & ->).
      simpl. split; [done|]. by intros (? & [=]).
    + eexists (n1 `max` n2), _. intros fuel Hfuel.
      unfold calculateRamUsage, calculateRamUsage_try.
      rewrite Hparse, Hcalls by lia. simpl. rewrite Hcost.
      split; [done|]. simpl. split; [by exists error|done].
  - eexists n1, _. intros fuel Hfuel.
    unfold calculateRamUsage, calculateRamUsage_try.
    rewrite Hparse by lia. simpl.
    split; [done|]. simpl. split; [by exists error|done].
Qed.

End TopLevel.


(** ** The editor's check for loops without [await] *)

Section LoopTreeInduction.

Variable P : LoopTree.Node → Prop.
Hypothesis P_Literal : ∀ raw, P (LoopTree.Literal raw).
Hypothesis P_AwaitExpression :
  ∀ argument, P argument → P (LoopTree.AwaitExpression argument).
Hypothesis P_WhileStatement :
  ∀ start test body, P test → P body →
    P (LoopTree.WhileStatement start test body).
Hypothesis P_Other :
  ∀ children, Forall P children → P (LoopTree.Other children).

Lemma LoopTree_nested_ind : ∀ node, P node.
Proof.
  fix IH 1. intros [raw|argument|start test body|children].
  - apply P_Literal.
  - apply P_AwaitExpression, IH.
  - apply P_WhileStatement; apply IH.
  - apply P_Other. induction children as [|child children IHc].
    + constructor.
    + constructor; [apply IH|apply IHc].
Qed.

End LoopTreeInduction.

(** The flag of [hasAwait] is never cleared, and it is set exactly by an
    [await] somewhere in the tree. *)
Lemma hasAwait_walk_spec (ast : LoopTree.Node) (flag : bool) :
  hasAwait_walk ast flag = true ↔ flag = true ∨ holdsAwait ast.
Proof.
  revert flag. induction ast as [raw|argument IH|start test body IHt IHb
                                |children IH] using LoopTree_nested_ind;
    intros flag; simpl.
  - split; [by left|]. intros [?|(a & Ha)]; [done|]. inversion Ha.
  - split; [|done]. intros _. right. exists argument. constructor.
  - rewrite IHb, IHt. split.
    + intros [[?|(a & Ha)]|(a & Ha)]; [by left| |].
      * right. exists a. by apply inside_test.
      * right. exists a. by apply inside_body.
    + intros [?|(a & Ha)]; [by left; left|].
      inversion Ha as [| |? ? ? ? Hin|? ? ? ? Hin|]; subst.
      * left. right. by exists a.
      * right. by exists a.
  - revert flag. induction IH as [|child children Hchild _ IHc]; intros flag.
    + split; [by left|]. intros [?|(a & Ha)]; [done|].
      inversion Ha as [| | | |? c ? Hc Hin]; subst.
      by apply elem_of_nil in Hc.
    + rewrite IHc, Hchild. split.
      * intros [[?|(a & Ha)]|(a & Ha)]; [by left| |].
        -- right. exists a. apply inside_child with child; [by left|done].
        -- right. exists a. inversion Ha as [| | | |? c ? Hc Hin]; subst.
           apply inside_child with c; [by right|done].
      * intros [?|(a & Ha)]; [by left; left|].
        inversion Ha as [| | | |? c ? Hc Hin]; subst.
        apply elem_of_cons in Hc as [->|Hc].
        -- left. right. by exists a.
        -- right. exists a. by apply inside_child with c.
Qed.

Lemma hasAwait_spec (ast : LoopTree.Node) :
  hasAwait ast = true ↔ holdsAwait ast.
Proof.
  unfold hasAwait. rewrite hasAwait_walk_spec. split; [|by right].
  by intros [?|?].
Qed.

Lemma lineOf_positive (code : string) (start : nat) : (1 ≤ lineOf code start)%Z.
Proof. unfold lineOf. lia. Qed.

(** One walk either leaves [missingAwaitLine] alone, and then every
    [while (true)] it can reach holds an [await]; or it ends on the line of
    a busy loop. *)
Lemma checkInfiniteLoop_walk_spec (code : string) (ast : LoopTree.Node)
    (line : Z) :
  (checkInfiniteLoop_walk code ast line = line
   ∧ ∀ node, besideTests ast node → ¬ busyLoop node)
  ∨ (∃ node, besideTests ast node ∧ busyLoop node
             ∧ checkInfiniteLoop_walk code ast line
               = lineOf code (startOf node)).
Proof.
  revert line. induction ast as [raw|argument IH|start test body _ IHb
                                |children IH] using LoopTree_nested_ind;
    intros line.
  - left. split; [done|]. intros node Hnode. inversion Hnode; subst. by intros [].
  - simpl. destruct (IH line) as [[Hkeep Hfree]|(node & Hnode & Hbusy & Hline)].
    + left. split; [done|]. intros node Hnode.
      inversion Hnode as [|? ? Hin| |]; subst; [by intros []|]. by apply Hfree.
    + right. exists node. split; [by apply beside_argument|done].
  - cbn [checkInfiniteLoop_walk].
    destruct (nodeHasTrueTest test
              && negb (hasAwait (LoopTree.WhileStatement start test body)))
      eqn:Hflag.
    + right. exists (LoopTree.WhileStatement start test body).
      apply andb_true_iff in Hflag as [Htrue Hawait].
      split; [constructor|]. split; [|done]. split; [done|].
      intros Hholds. apply hasAwait_spec in Hholds.
      by rewrite Hholds in Hawait.
    + destruct (IHb line) as [[Hkeep Hfree]|(node & Hnode & Hbusy & Hline)].
      * left. split; [done|]. intros node Hnode.
        inversion Hnode as [| |? ? ? ? Hin|]; subst; [|by apply Hfree].
        intros [Htrue Hholds]. rewrite Htrue in Hflag. simpl in Hflag.
        apply negb_false_iff, hasAwait_spec in Hflag. done.
      * right. exists node. split; [by apply beside_body|done].
  - cbn [checkInfiniteLoop_walk]. revert line.
    induction IH as [|child children Hchild _ IHc]; intros line.
    + left. split; [done|]. intros node Hnode.
      inversion Hnode as [| | |? c ? Hc Hin]; subst; [by intros []|].
      by apply elem_of_nil in Hc.
    + destruct (IHc (checkInfiniteLoop_walk code child line))
        as [[Hkeep Hfree]|(node & Hnode & Hbusy & Hline)].
      * destruct (Hchild line)
          as [[Hkeep' Hfree']|(node & Hnode & Hbusy & Hline)].
        -- left. split; [by rewrite Hkeep, Hkeep'|].
           intros node Hnode.
           inversion Hnode as [| | |? c ? Hc Hin]; subst; [by intros []|].
           apply elem_of_cons in Hc as [->|Hc]; [by apply Hfree'|].
           apply Hfree. by apply beside_child with c.
        -- right. exists node.
           split; [apply beside_child with child; [by left|done]|].
           split; [done|]. by rewrite Hkeep.
      * right. exists node. split; [|done].
        inversion Hnode as [| | |? c ? Hc Hin]; subst; [by destruct Hbusy|].
        apply beside_child with c; [by right|done].
Qed.

(** X16 -- The verdict of [checkInfiniteLoop].  On a text the front end
    accepts the result is [-1] exactly when every [while (true)] statement
    that is not in the test of another [while] holds an [await] somewhere in
    it, be it in a nested function or in its own test; otherwise it is the
    line, counted from 1, on which such a loop without [await] starts.
    A loop whose test is anything but the literal [true] is never
    reported. *)
Theorem checkInfiniteLoop_verdict (parse : string → option LoopTree.Node)
    (code : string) (ast : LoopTree.Node) :
  parse code = Some ast →
  ∃ line,
    checkInfiniteLoop parse code = Return line
    ∧ (line = (-1)%Z ↔ ∀ node, besideTests ast node → ¬ busyLoop node)
    ∧ (line ≠ (-1)%Z →
       ∃ node, besideTests ast node ∧ busyLoop node
               ∧ line = lineOf code (startOf node) ∧ (1 ≤ line)%Z).
Proof.
  intros Hparse. unfold checkInfiniteLoop. rewrite Hparse.
  eexists. split; [done|].
  destruct (checkInfiniteLoop_walk_spec code ast (-1))
    as [[-> Hfree]|(node & Hnode & Hbusy & ->)].
  - split; [done|]. by intros [].
  - pose proof (lineOf_positive code (startOf node)). split.
    + split; [lia|]. intros Hfree. by destruct (Hfree node Hnode).
    + intros _. by exists node.
Qed.


(** X17 -- The last loop wins.  [missingAwaitLine] is overwritten by every
    loop flagged: among the statements of a block, the line reported is that
    of the last [while (true)] without [await], not of the first. *)
Theorem checkInfiniteLoop_reports_last (parse : string → option LoopTree.Node)
    (code : string) (before rest : list LoopTree.Node) (loop : LoopTree.Node) :
  parse code = Some (LoopTree.Other (before ++ loop :: rest)) →
  busyLoop loop →
  (∀ child node, child ∈ rest → besideTests child node → ¬ busyLoop node) →
  checkInfiniteLoop parse code = Return (lineOf code (startOf loop)).
Proof.
  intros Hparse Hbusy Hfree. unfold checkInfiniteLoop. rewrite Hparse.
  f_equal. clear Hparse. generalize (-1)%Z as line.
  induction before as [|child before IH]; intros line;
    [|apply (IH (checkInfiniteLoop_walk code child line))].
  simpl (_ ++ _). cbn [checkInfiniteLoop_walk].
  assert (checkInfiniteLoop_walk code loop line = lineOf code (startOf loop))
    as ->.
  { destruct loop as [| |start test body|]; try done.
    destruct Hbusy as [Htrue Hnone]. cbn [checkInfiniteLoop_walk].
    rewrite Htrue. destruct (hasAwait _) eqn:Hawait; [|done].
    by apply hasAwait_spec in Hawait. }
  destruct (checkInfiniteLoop_walk_spec code (LoopTree.Other rest)
              (lineOf code (startOf loop)))
    as [[Hkeep _]|(node & Hnode & Hbusy' & _)]; [exact Hkeep|].
  inversion Hnode as [| | |? c ? Hc Hin]; subst; [done|].
  by destruct (Hfree c node Hc Hin).
Qed.


(** ** What the walk inside a function does not see *)

Lemma name_withoutArguments (node : Acorn.Node) :
  Acorn.name (withoutArguments node) = Acorn.name node.
Proof. by destruct node. Qed.

Lemma calleeName_withoutArguments (callee : Acorn.Node) :
  calleeName (withoutArguments callee) = calleeName callee.
Proof.
  destruct callee as
    [ | | |object property|callee arguments|callee arguments|argument
    |elements|params body|expression|argument|declarations|id init|body
    |id params body|id body|body|key value|key value|specifiers source
    |declaration|declaration|body ]; try reflexivity.
  destruct object as
    [ | | |object property'|callee arguments|callee arguments|argument
    |elements|params body|expression|argument|declarations|id init|body
    |id params body|id body|body|key value|key value|specifiers source
    |declaration|declaration|body ]; try reflexivity.
  - unfold calleeName. simpl. by rewrite name_withoutArguments.
  - unfold calleeName. simpl. by rewrite name_withoutArguments.
  - unfold calleeName. simpl. by rewrite name_withoutArguments.
Qed.

Lemma within_each_withoutArguments (nodes : list Acorn.Node) :
  Forall (λ n, ∀ state, withinBlockParsing (withoutArguments n) state
                        = withinBlockParsing n state) nodes →
  ∀ state,
    withinBlockParsing
      (Acorn.BlockStatement (List.map withoutArguments nodes)) state
    = withinBlockParsing (Acorn.BlockStatement nodes) state.
Proof.
  induction 1 as [|n nodes Hn _ IH]; intros state; [done|].
  change (withinBlockParsing (withoutArguments n) state
          ≫= withinBlockParsing
               (Acorn.BlockStatement (List.map withoutArguments nodes))
          = withinBlockParsing n state
            ≫= withinBlockParsing (Acorn.BlockStatement nodes)).
  rewrite Hn. destruct (withinBlockParsing n state); [apply IH|done].
Qed.

(** X18 -- Calls written as arguments are not seen.  After a call or a
    [new] the walk inside a function goes on into the callee only: removing
    the arguments of every call of a function body changes neither the calls
    recorded for it nor whether the walk fails.  A call made only in argument
    position, as [hack] in [ns.print(ns.hack())], is not recorded. *)
Theorem withinBlockParsing_ignores_arguments (node : Acorn.Node)
    (state : WithinFunctionParseState) :
  withinBlockParsing (withoutArguments node) state
  = withinBlockParsing node state.
Proof.
  revert state.
  induction node as
    [name|raw| |object property IHo|callee arguments IHc _
    |callee arguments IHc _|argument IHa|elements IHl|params body IHl IHb
    |expression IHe|argument IHa|declarations IHl|id init IHi IHo|body IHl
    |id params body IHl IHb|id body IHb|body IHl|key value IHv
    |key value IHv|specifiers source|declaration IHd|declaration IHd
    |body IHl ] using Node_nested_ind; intros state.
  - done.
  - done.
  - done.
  - simpl. by rewrite name_withoutArguments.
  - change (calleeName (withoutArguments callee)
            ≫= (λ '(fnName, fnNamespace),
                  withinBlockParsing (withoutArguments callee)
                    (recordFunctionCall fnName fnNamespace state))
            = calleeName callee
              ≫= (λ '(fnName, fnNamespace),
                    withinBlockParsing callee
                      (recordFunctionCall fnName fnNamespace state))).
    rewrite calleeName_withoutArguments.
    destruct (calleeName callee) as [[fnName fnNamespace]|]; [apply IHc|done].
  - change (calleeName (withoutArguments callee)
            ≫= (λ '(fnName, fnNamespace),
                  withinBlockParsing (withoutArguments callee)
                    (recordFunctionCall fnName fnNamespace state))
            = calleeName callee
              ≫= (λ '(fnName, fnNamespace),
                    withinBlockParsing callee
                      (recordFunctionCall fnName fnNamespace state))).
    rewrite calleeName_withoutArguments.
    destruct (calleeName callee) as [[fnName fnNamespace]|]; [apply IHc|done].
  - apply IHa.
  - by apply within_each_withoutArguments.
  - change (withinBlockParsing
              (Acorn.BlockStatement (List.map withoutArguments params)) state
            ≫= withinBlockParsing (withoutArguments body)
            = withinBlockParsing (Acorn.BlockStatement params) state
              ≫= withinBlockParsing body).
    rewrite (within_each_withoutArguments _ IHl).
    destruct (withinBlockParsing _ state); [apply IHb|done].
  - apply IHe.
  - destruct argument as [n|]; [apply (IHa n eq_refl)|done].
  - by apply within_each_withoutArguments.
  - change (withinBlockParsing (withoutArguments id) state
            ≫= (λ state', match option_map withoutArguments init with
                          | Some n => withinBlockParsing n state'
                          | None => Some state'
                          end)
            = withinBlockParsing id state
              ≫= (λ state', match init with
                            | Some n => withinBlockParsing n state'
                            | None => Some state'
                            end)).
    rewrite IHi. destruct (withinBlockParsing id state); [|done].
    destruct init as [n|]; [apply (IHo n eq_refl)|done].
  - by apply within_each_withoutArguments.
  - change (withinBlockParsing
              (Acorn.BlockStatement (List.map withoutArguments params)) state
            ≫= withinBlockParsing (withoutArguments body)
            = withinBlockParsing (Acorn.BlockStatement params) state
              ≫= withinBlockParsing body).
    rewrite (within_each_withoutArguments _ IHl).
    destruct (withinBlockParsing _ state); [apply IHb|done].
  - apply IHb.
  - by apply within_each_withoutArguments.
  - apply IHv.
  - destruct value as [n|]; [apply (IHv n eq_refl)|done].
  - done.
  - destruct declaration as [n|]; [apply (IHd n eq_refl)|done].
  - apply IHd.
  - by apply within_each_withoutArguments.
Qed.

(** ** The further properties on the concrete host *)

Lemma findAllCalledFunctions_entry_edges_witness :
  findAllCalledFunctions 2 [] defaultEntryPoint
  = Some (mkFunctionCalls [] [])
  ∧ findAllCalledFunctions 2 [Demo.module_hack_twice]
      (mkDefinedFunction "other" "" "")
    = Some (mkFunctionCalls [] [mkDefinedFunction "other" "" ""]).
Proof.
  split.
  - apply (proj1 (findAllCalledFunctions_entry_edges [] defaultEntryPoint 0)).
    intros [m Hm]. discriminate Hm.
  - apply (proj2 (findAllCalledFunctions_entry_edges [Demo.module_hack_twice]
                    (mkDefinedFunction "other" "" "") 0)).
    + eexists. reflexivity.
    + intros (currentModule & currentFn & Hmodule & Hdefinition).
      injection Hmodule as <-. discriminate Hdefinition.
Defined.

Lemma calculateRamCost_special_twice_witness :
  let sk := mkRamUsageEntry type_ns "ns.hacknet" (Js.Number 4) in
  let f1 := mkDefinedFunction "numNodes" "ns.hacknet" "" in
  let f2 := mkDefinedFunction "spendHashes" "ns.hacknet" "" in
  costEntry Demo.RamCosts Demo.RamCostConstants 0%nat f1 = Return sk
  ∧ calculateRamCost Demo.RamCosts Demo.RamCostConstants 0%nat [f1; f2]
    = Return (mkRamCalculation
                (Js.plus (Js.plus (Js.Number (16 # 10)) (Js.Number 4))
                   (Js.Number 4))
                (Some [sk; sk])).
Proof.
  intros sk f1 f2.
  apply (calculateRamCost_special_twice Demo.RamCosts Demo.RamCostConstants
           0%nat f1 f2 sk).
  - apply list_elem_of_In. simpl. left. reflexivity.
  - reflexivity.
  - reflexivity.
  - discriminate.
Defined.


Lemma calculateRamCost_receiver_renamed_witness :
  let functions :=
    [mkDefinedFunction "hack" "ns" ""; mkDefinedFunction "grow" "ns" ""] in
  calculateRamCost Demo.RamCosts Demo.RamCostConstants 0%nat
    (map (withNamespace "ns" "netscript") functions)
  = calculateRamCost Demo.RamCosts Demo.RamCostConstants 0%nat functions.
Proof.
  intros functions.
  apply (calculateRamCost_receiver_renamed Demo.RamCosts Demo.RamCostConstants
           0%nat functions "ns" "netscript").
  - split; [|vm_compute; lia].
    intros Hin. apply list_elem_of_In in Hin. simpl in Hin.
    intuition discriminate.
  - split; [|vm_compute; lia].
    intros Hin. apply list_elem_of_In in Hin. simpl in Hin.
    intuition discriminate.
  - intros fn Hin. apply list_elem_of_In in Hin. simpl in Hin.
    destruct Hin as [<-|[<-|[]]]; discriminate.
Defined.

Lemma parseScript_labels_witness :
  ∃ m,
    parseScript Demo.parse "lib.js" Demo.src_hack_twice = Return m
    ∧ pm_filePath m = "lib.js"
    ∧ Forall (λ ft, namespace (fn ft) = ""
                    ∧ filePath (fn ft) = "lib.js"
                    ∧ Forall (λ d, filePath d = "lib.js") (calledFunctions ft))
        (functionTree m).
Proof.
  eexists. split; [vm_compute; reflexivity|].
  apply (parseScript_labels Demo.parse "lib.js" Demo.src_hack_twice).
  vm_compute. reflexivity.
Defined.

Lemma call_without_name_throws_witness :
  parseScript Samples.parse "" Samples.src_immediate = Throw TypeError
  ∧ calculateRamUsage Demo.RamCosts Demo.RamCostConstants Demo.errorCodeValue
      Samples.parse Demo.areImportsEquals Demo.dynamicImport 10 0%nat
      Samples.src_immediate []
    = Some (mkRamCalculation (Js.Number (-1)) None).
Proof.
  apply (call_without_name_throws Demo.RamCosts Demo.RamCostConstants
           Demo.errorCodeValue Samples.parse Demo.areImportsEquals
           Demo.dynamicImport 10 0%nat Samples.src_immediate []
           [] [] [Acorn.Identifier "ns"] [] [] [] (Some "main")
           (Acorn.FunctionExpression [] (Acorn.BlockStatement []))).
  - discriminate.
  - discriminate.
  - reflexivity.
Defined.

Lemma parseAll_answers_every_import_witness :
  ∃ modules,
    Demo.parseAll 20 new_InvocationTreeBuilder Demo.src_cyclic_main
      Demo.cyclic_scripts = Some (Return modules)
    ∧ ∃ answer, answer ∈ modules ∧ pm_filePath answer = normalizedPath "./a".
Proof.
  eexists. split; [vm_compute; reflexivity|].
  eapply (parseAll_answers_every_import Demo.parse Demo.areImportsEquals
            Demo.dynamicImport 20 Demo.src_cyclic_main Demo.cyclic_scripts).
  - vm_compute. reflexivity.
  - apply list_elem_of_In. left. reflexivity.
  - apply list_elem_of_In. left. reflexivity.
Defined.

Lemma parseAll_exception_witness :
  Demo.parseAll 20 new_InvocationTreeBuilder Demo.src_missing_import []
  = Some (Throw (RamCalculationException RamCalculationErrorCode.ImportError
                   "Imported module nowhere can't be found"))
  ∧ ((RamCalculationErrorCode.ImportError = RamCalculationErrorCode.ImportError
      ∧ ∃ pathToParse,
          isUrl pathToParse = false
          ∧ List.find (λ s, Demo.areImportsEquals (filename s)
                              (normalizedPath pathToParse)) [] = None
          ∧ "Imported module nowhere can't be found"
            = "Imported module " +:+ normalizedPath pathToParse
                +:+ " can't be found")
     ∨ (RamCalculationErrorCode.ImportError
        = RamCalculationErrorCode.URLImportError
        ∧ ∃ pathToParse e,
            isUrl pathToParse = true
            ∧ Demo.dynamicImport pathToParse = inr e
            ∧ "Imported module nowhere can't be found"
              = "Error dynamically importing module from "
                  +:+ pathToParse +:+ " for RAM calculations: " +:+ e)).
Proof.
  split; [vm_compute; reflexivity|].
  apply (parseAll_exception Demo.parse Demo.areImportsEquals Demo.dynamicImport
           20 new_InvocationTreeBuilder Demo.src_missing_import []).
  vm_compute. reflexivity.
Defined.

Lemma parseAll_terminates_witness :
  ∃ n outcome, ∀ fuel, n ≤ fuel →
    Demo.parseAll fuel new_InvocationTreeBuilder Demo.src_cyclic_main
      Demo.cyclic_scripts = Some outcome.
Proof.
  apply (parseAll_terminates Demo.parse Demo.areImportsEquals
           Demo.dynamicImport new_InvocationTreeBuilder Demo.src_cyclic_main
           Demo.cyclic_scripts).
  apply Forall_forall. vm_compute. repeat constructor.
Defined.

Lemma dot_slash_import_not_resolved_witness :
  ∃ modules,
    Demo.parseAll 20 new_InvocationTreeBuilder Demo.src_cyclic_main
      Demo.cyclic_scripts = Some (Return modules)
    ∧ ¬ resolves modules (mkDefinedFunction "f" "" "").
Proof.
  eexists. split; [vm_compute; reflexivity|].
  eapply (dot_slash_import_not_resolved Demo.parse Demo.areImportsEquals
            Demo.dynamicImport 20 Demo.src_cyclic_main Demo.cyclic_scripts).
  - vm_compute. reflexivity.
  - intros m p Hm. revert p. revert m Hm.
    apply (proj1 (Forall_forall
                    (λ m, ∀ p, p ∈ specifiersOf m
                               → Js.startsWith p "././" = false) _)).
    repeat constructor; apply Forall_forall; vm_compute; repeat constructor.
  - vm_compute. reflexivity.
  - vm_compute. reflexivity.
  - vm_compute. reflexivity.
  - vm_compute. reflexivity.
Defined.

Lemma calculateRamUsage_returns_witness :
  ∃ n calculation, ∀ fuel, n ≤ fuel →
    Demo.calculateRamUsage fuel 0%nat Demo.src_cyclic_main Demo.cyclic_scripts
    = Some calculation
    ∧ (entries calculation = None
       ↔ ∃ error,
           Demo.calculateRamUsage_try fuel 0%nat Demo.src_cyclic_main
             Demo.cyclic_scripts = Some (Throw error)).
Proof.
  apply (calculateRamUsage_returns Demo.RamCosts Demo.RamCostConstants
           Demo.errorCodeValue Demo.parse Demo.areImportsEquals
           Demo.dynamicImport 0%nat Demo.src_cyclic_main Demo.cyclic_scripts).
  apply Forall_forall. vm_compute. repeat constructor.
Defined.

Lemma checkInfiniteLoop_verdict_witness :
  checkInfiniteLoop Samples.parseLoops Samples.src_busy = Return 2%Z
  ∧ ∃ line,
    checkInfiniteLoop Samples.parseLoops Samples.src_busy = Return line
    ∧ (line = (-1)%Z
       ↔ ∀ node, besideTests Samples.ast_busy node → ¬ busyLoop node)
    ∧ (line ≠ (-1)%Z →
       ∃ node, besideTests Samples.ast_busy node ∧ busyLoop node
               ∧ line = lineOf Samples.src_busy (startOf node)
               ∧ (1 ≤ line)%Z).
Proof.
  split; [vm_compute; reflexivity|].
  apply (checkInfiniteLoop_verdict Samples.parseLoops Samples.src_busy
           Samples.ast_busy).
  reflexivity.
Defined.

Lemma checkInfiniteLoop_reports_last_witness :
  checkInfiniteLoop Samples.parseLoops Samples.src_busy_twice = Return 2%Z.
Proof.
  apply (checkInfiniteLoop_reports_last Samples.parseLoops
           Samples.src_busy_twice
           [LoopTree.WhileStatement 0 (LoopTree.Literal "true")
              (LoopTree.Other [])]
           []
           (LoopTree.WhileStatement 14 (LoopTree.Literal "true")
              (LoopTree.Other []))).
  - reflexivity.
  - split; [reflexivity|]. intros Hawait. apply hasAwait_spec in Hawait.
    discriminate Hawait.
  - intros child node Hin. apply list_elem_of_In in Hin. destruct Hin.
Defined.
